(** * A model of the coroutine package (embed.go, start.go)

    A coroutine is one goroutine running a user function next to any number
    of goroutines that hold its [Ref].  They share one [*Embeddable]: the
    mailbox behind [mailboxLock], the unbuffered [receiver] channel, two
    reusable timers and the unsynchronised [running] flag.

    The package is embedded as a labelled transition system.  Every method
    is cut into the statements at which another goroutine can interleave:
    a position type per method lists them with the source lines, and the
    method itself is the function that executes the statement at a
    position.  A schedule is a list of labels naming who moves next; [run]
    executes a schedule.  Memory is sequentially consistent, and a timer
    expires in one step (it is disarmed and its channel is filled at once).

    Fields marked "ghost" record history for the statements of the
    theorems; no step reads them. *)

From Stdlib Require Import ZArith NArith String DecimalString Lia.
From stdpp Require Import base tactics option list strings.

Local Open Scope string_scope.
Local Open Scope list_scope.
Local Open Scope Z_scope.

(** ** Values *)

(** [interface{}] values that travel through the mailbox. *)
Inductive Value :=
| VNil
| VInt (n : Z)
| VString (s : string)
| VBool (b : bool).

(** What a goroutine can be panicking with. *)
Inductive Panic :=
| PStop                  (* panic(Stop{}), start.go:12 *)
| PError (msg : string)  (* a run-time error of the Go runtime *)
| PValue (v : Value).    (* any other value handed to panic *)

(** ** time.Timer

    [C] is the timer's channel (capacity one).  [gen] counts the armings
    (ghost); the value in [C] is the arming that produced it (ghost, Go
    stores the time of day there). *)
Record Timer := mkTimer {
  armed : bool;
  period : Z;
  gen : nat;
  C : option nat
}.

Definition NewTimer (d : Z) : Timer :=
  {| armed := true; period := d; gen := 0; C := None |}.

(** [t.Stop()]: reports whether the call stopped the timer. *)
Definition Timer_Stop (t : Timer) : bool * Timer :=
  (armed t, {| armed := false; period := period t; gen := gen t; C := C t |}).

(** [t.Reset(d)] *)
Definition Timer_Reset (d : Z) (t : Timer) : Timer :=
  {| armed := true; period := d; gen := S (gen t); C := C t |}.

(** The runtime expires an armed timer: a non-blocking send on [C]. *)
Definition Timer_expire (t : Timer) : option Timer :=
  if armed t then
    Some {| armed := false; period := period t; gen := gen t;
            C := match C t with None => Some (gen t) | Some g => Some g end |}
  else None.

(** [<-t.C]: blocks (None) while the channel is empty. *)
Definition Timer_recv (t : Timer) : option (nat * Timer) :=
  match C t with
  | Some g => Some (g, {| armed := armed t; period := period t; gen := gen t; C := None |})
  | None => None
  end.

(** ** Embeddable (embed.go:18-27) *)

Inductive Owner := Coroutine | Holder (i : nat).

Record Embeddable := mkEmbeddable {
  id : N;                         (* uint64 *)
  name : string;
  waitTimer : Timer;
  receiver : bool;                (* chan bool, unbuffered: true once closed *)
  receiveTimer : Timer;
  mailbox : list Value;
  mailboxLock : option Owner;     (* sync.Mutex; the owner is ghost *)
  running : bool
}.

(** ** The coroutine's code

    The user function is opaque: it decides what to do next from the
    results its calls have returned so far. *)
Inductive Result :=
| RUnit                          (* Pause *)
| RValue (r : Value)             (* Recv *)
| RPair (r : Value) (ok : bool). (* RecvFor, RecvImmediate *)

Inductive Action :=
| DoPause (d : Z)
| DoRecv
| DoRecvFor (d : Z)
| DoRecvImmediate
| DoStop
| DoReturn
| DoPanic (v : Panic).

Definition Body := list Result → Action.

(** Positions inside Pause (embed.go:33-55). *)
Inductive PausePc :=
| P_entry            (* 34-38 *)
| P_stop             (* 44, !e.waitTimer.Stop() *)
| P_len              (* 44, len(e.waitTimer.C) > 0 *)
| P_drain            (* 45 *)
| P_reset            (* 47 *)
| P_wait (g : nat)   (* 48, before the receive; g: the arming of line 47 *)
| P_woken (g g' : nat). (* 52-54; g': the arming whose expiry was received *)

(** Positions inside Recv (embed.go:62-83). *)
Inductive RecvPc :=
| R_entry            (* 63-65 *)
| R_lock             (* 67 *)
| R_len              (* 68 *)
| R_unlock           (* 69 *)
| R_recv             (* 70, about to receive from e.receiver *)
| R_wait             (* 70, parked on <-e.receiver *)
| R_woken            (* 72-74 *)
| R_relock           (* 76 *)
| R_head             (* 79-80 *)
| R_ret (r : Value). (* 81-82 *)

Inductive Wake := ByReceiver | ByTimer (g' : nat).

(** Positions inside RecvFor (embed.go:91-130). *)
Inductive RecvForPc :=
| F_entry            (* 92-94 *)
| F_dur              (* 96-98 *)
| F_lock             (* 100 *)
| F_len              (* 101 *)
| F_unlock           (* 102 *)
| F_stop             (* 104, !e.receiveTimer.Stop() *)
| F_tlen             (* 104, len(e.receiveTimer.C) > 0 *)
| F_drain            (* 105 *)
| F_reset            (* 108 *)
| F_sel (g : nat)    (* 109-112, about to select; g: the arming of line 108 *)
| F_select (g : nat) (* 109-112, parked on both channels *)
| F_woken (g : nat) (w : Wake) (* 114-116 *)
| F_relock           (* 118 *)
| F_len2             (* 121 *)
| F_empty            (* 122-123 *)
| F_head             (* 126-127 *)
| F_ret (r : Value). (* 128-129 *)

(** Positions inside RecvImmediate (embed.go:137-152). *)
Inductive RecvImmediatePc :=
| I_entry            (* 138-140 *)
| I_lock             (* 142 *)
| I_len              (* 143 *)
| I_empty            (* 144-145 *)
| I_head             (* 148-149 *)
| I_ret (r : Value). (* 150-151 *)

(** Positions inside Embeddable.Stop (embed.go:156-163). *)
Inductive StopPc :=
| X_entry            (* 157-160 *)
| X_set              (* 161 *)
| X_panic.           (* 162 *)

(** Positions inside the deferred function of the goroutine
    (start.go:55-72, and the same text at 102-119). *)
Inductive DeferPc :=
| D_running          (* 58 *)
| D_waitTimer        (* 60 *)
| D_receiveTimer     (* 61 *)
| D_close            (* 62 *)
| D_recover.         (* 64-71 *)

(** Where the coroutine's goroutine is.  [exit] is what [recover()] will
    return: None after a normal return of the body. *)
Inductive Pc :=
| InBody
| InPause (d : Z) (l : PausePc)
| InRecv (l : RecvPc)
| InRecvFor (d : Z) (l : RecvForPc)
| InRecvImmediate (l : RecvImmediatePc)
| InStop (l : StopPc)
| InDefer (exit : option Panic) (l : DeferPc)
| Ended (exit : option Panic)    (* the goroutine ended silently *)
| Repanicked (v : Panic).        (* a panic left the goroutine *)

(** Positions inside embeddableRef.Send (embed.go:188-199). *)
Inductive SendPc :=
| S_lock             (* 189 *)
| S_append           (* 190 *)
| S_unlock           (* 191 *)
| S_notify.          (* 195-198 *)

(** Positions inside embeddableRef.Stop (embed.go:219-233). *)
Inductive RefStopPc :=
| T_check            (* 220-224 *)
| T_set              (* 226 *)
| T_notify.          (* 229-232 *)

(** A call made through the Ref by some other goroutine. *)
Inductive HolderPc :=
| InSend (v : Value) (l : SendPc)
| InRefStop (l : RefStopPc)
| Returned
| Panicked (p : Panic).

Inductive CleanupOp :=
| ClearRunning | StopWaitTimer | StopReceiveTimer | CloseReceiver.

Record State := mkState {
  emb : Embeddable;
  body : Body;
  pc : Pc;
  results : list Result;      (* what the calls of the body returned *)
  holders : list HolderPc;    (* the calls made through the Ref *)
  logged : list string;       (* log.Printf output *)
  enqueued : list Value;      (* ghost: appended to the mailbox, in order *)
  dequeued : list Value;      (* ghost: removed from the mailbox, in order *)
  cleaned : list CleanupOp    (* ghost: cleanup statements executed *)
}.

(** ** Field updates *)

Definition on_emb (f : Embeddable → Embeddable) (s : State) : State :=
  {| emb := f (emb s); body := body s; pc := pc s; results := results s;
     holders := holders s; logged := logged s; enqueued := enqueued s;
     dequeued := dequeued s; cleaned := cleaned s |}.

Definition set_waitTimer (t : Timer) : State → State :=
  on_emb (λ e, {| id := id e; name := name e; waitTimer := t; receiver := receiver e;
                  receiveTimer := receiveTimer e; mailbox := mailbox e;
                  mailboxLock := mailboxLock e; running := running e |}).

Definition set_receiveTimer (t : Timer) : State → State :=
  on_emb (λ e, {| id := id e; name := name e; waitTimer := waitTimer e; receiver := receiver e;
                  receiveTimer := t; mailbox := mailbox e;
                  mailboxLock := mailboxLock e; running := running e |}).

Definition set_receiver (c : bool) : State → State :=
  on_emb (λ e, {| id := id e; name := name e; waitTimer := waitTimer e; receiver := c;
                  receiveTimer := receiveTimer e; mailbox := mailbox e;
                  mailboxLock := mailboxLock e; running := running e |}).

Definition set_mailbox (q : list Value) : State → State :=
  on_emb (λ e, {| id := id e; name := name e; waitTimer := waitTimer e; receiver := receiver e;
                  receiveTimer := receiveTimer e; mailbox := q;
                  mailboxLock := mailboxLock e; running := running e |}).

Definition set_mailboxLock (o : option Owner) : State → State :=
  on_emb (λ e, {| id := id e; name := name e; waitTimer := waitTimer e; receiver := receiver e;
                  receiveTimer := receiveTimer e; mailbox := mailbox e;
                  mailboxLock := o; running := running e |}).

Definition set_running (b : bool) : State → State :=
  on_emb (λ e, {| id := id e; name := name e; waitTimer := waitTimer e; receiver := receiver e;
                  receiveTimer := receiveTimer e; mailbox := mailbox e;
                  mailboxLock := mailboxLock e; running := b |}).

Definition goto (p : Pc) (s : State) : State :=
  {| emb := emb s; body := body s; pc := p; results := results s;
     holders := holders s; logged := logged s; enqueued := enqueued s;
     dequeued := dequeued s; cleaned := cleaned s |}.

Definition set_holders (h : list HolderPc) (s : State) : State :=
  {| emb := emb s; body := body s; pc := pc s; results := results s;
     holders := h; logged := logged s; enqueued := enqueued s;
     dequeued := dequeued s; cleaned := cleaned s |}.

Definition log_Printf (line : string) (s : State) : State :=
  {| emb := emb s; body := body s; pc := pc s; results := results s;
     holders := holders s; logged := logged s ++ [line]; enqueued := enqueued s;
     dequeued := dequeued s; cleaned := cleaned s |}.

Definition note_enqueued (v : Value) (s : State) : State :=
  {| emb := emb s; body := body s; pc := pc s; results := results s;
     holders := holders s; logged := logged s; enqueued := enqueued s ++ [v];
     dequeued := dequeued s; cleaned := cleaned s |}.

Definition note_dequeued (v : Value) (s : State) : State :=
  {| emb := emb s; body := body s; pc := pc s; results := results s;
     holders := holders s; logged := logged s; enqueued := enqueued s;
     dequeued := dequeued s ++ [v]; cleaned := cleaned s |}.

Definition note_cleaned (o : CleanupOp) (s : State) : State :=
  {| emb := emb s; body := body s; pc := pc s; results := results s;
     holders := holders s; logged := logged s; enqueued := enqueued s;
     dequeued := dequeued s; cleaned := cleaned s ++ [o] |}.

(** ** Statements shared by the methods *)

(** A panic in the goroutine of the coroutine: the body has no deferred
    function of its own, so the deferred function of the start wrapper runs
    next, and [recover()] will return [v]. *)
Definition panic (v : Panic) (s : State) : State :=
  goto (InDefer (Some v) D_running) s.

(** A method returns [r] to the body. *)
Definition ret (r : Result) (s : State) : State :=
  {| emb := emb s; body := body s; pc := InBody; results := results s ++ [r];
     holders := holders s; logged := logged s; enqueued := enqueued s;
     dequeued := dequeued s; cleaned := cleaned s |}.

(** [mailboxLock.Lock()]: blocks (None) while the mutex is held. *)
Definition Lock (who : Owner) (s : State) : option State :=
  match mailboxLock (emb s) with
  | None => Some (set_mailboxLock (Some who) s)
  | Some _ => None
  end.

(** [mailboxLock.Unlock()].  Unlocking an unlocked mutex is a fatal error of
    the Go runtime; no step is given to it. *)
Definition Unlock (s : State) : option State :=
  match mailboxLock (emb s) with
  | Some _ => Some (set_mailboxLock None s)
  | None => None
  end.

(** [r := e.mailbox[0]; e.mailbox = e.mailbox[1:]], then continue at [k r].
    Indexing an empty slice panics. *)
Definition take_head (k : Value → Pc) (s : State) : State :=
  match mailbox (emb s) with
  | r :: q => goto (k r) (note_dequeued r (set_mailbox q s))
  | [] => panic (PError "index out of range") s
  end.

(** [select { case e.receiver <- true: default: }] by another goroutine.
    The channel is unbuffered: the send happens exactly when the coroutine
    is parked on a receive.  Sending on a closed channel panics, also in a
    select with a default case. *)
Definition notify (s : State) : State + Panic :=
  if receiver (emb s) then inr (PError "send on closed channel")
  else match pc s with
       | InRecv R_wait => inl (goto (InRecv R_woken) s)
       | InRecvFor d (F_select g) => inl (goto (InRecvFor d (F_woken g ByReceiver)) s)
       | _ => inl s
       end.

(** The %v of a uint64. *)
Definition fmt_uint (n : N) : string := NilEmpty.string_of_uint (N.to_uint n).

Definition self_stop_line (e : Embeddable) : string :=
  "Coroutine [" +:+ fmt_uint (id e) +:+ " / " +:+ name e +:+
  "] attempted to stop itself when it isn't running, possible bug found.".

Definition ref_stop_line (e : Embeddable) : string :=
  "Coroutine [" +:+ fmt_uint (id e) +:+ " / " +:+ name e +:+
  "] attempted to be stopped when it isn't running, possible bug found.".

(** ** Methods of Embeddable, run by the coroutine's goroutine *)

Definition Pause (d : Z) (l : PausePc) (s : State) : option State :=
  match l with
  | P_entry =>
      Some (if running (emb s) then goto (InPause d P_stop) s else panic PStop s)
  | P_stop =>
      let '(was, t) := Timer_Stop (waitTimer (emb s)) in
      Some (goto (InPause d (if was then P_reset else P_len)) (set_waitTimer t s))
  | P_len =>
      Some (goto (InPause d (match C (waitTimer (emb s)) with
                             | Some _ => P_drain
                             | None => P_reset
                             end)) s)
  | P_drain =>
      '(_, t) ← Timer_recv (waitTimer (emb s));
      Some (goto (InPause d P_reset) (set_waitTimer t s))
  | P_reset =>
      let t := Timer_Reset d (waitTimer (emb s)) in
      Some (goto (InPause d (P_wait (gen t))) (set_waitTimer t s))
  | P_wait g =>
      '(g', t) ← Timer_recv (waitTimer (emb s));
      Some (goto (InPause d (P_woken g g')) (set_waitTimer t s))
  | P_woken _ _ =>
      Some (if running (emb s) then ret RUnit s else panic PStop s)
  end.

Definition Recv (l : RecvPc) (s : State) : option State :=
  match l with
  | R_entry =>
      Some (if running (emb s) then goto (InRecv R_lock) s else panic PStop s)
  | R_lock => goto (InRecv R_len) <$> Lock Coroutine s
  | R_len =>
      Some (goto (InRecv (match mailbox (emb s) with
                          | [] => R_unlock
                          | _ :: _ => R_head
                          end)) s)
  | R_unlock => goto (InRecv R_recv) <$> Unlock s
  | R_recv =>
      (* no sender ever waits on e.receiver: the coroutine parks, unless the
         channel is closed, from which a receive returns at once *)
      Some (goto (InRecv (if receiver (emb s) then R_woken else R_wait)) s)
  | R_wait =>
      if receiver (emb s) then Some (goto (InRecv R_woken) s) else None
  | R_woken =>
      Some (if running (emb s) then goto (InRecv R_relock) s else panic PStop s)
  | R_relock => goto (InRecv R_head) <$> Lock Coroutine s
  | R_head => Some (take_head (λ r, InRecv (R_ret r)) s)
  | R_ret r => ret (RValue r) <$> Unlock s
  end.

Definition RecvImmediate (l : RecvImmediatePc) (s : State) : option State :=
  match l with
  | I_entry =>
      Some (if running (emb s) then goto (InRecvImmediate I_lock) s else panic PStop s)
  | I_lock => goto (InRecvImmediate I_len) <$> Lock Coroutine s
  | I_len =>
      Some (goto (InRecvImmediate (match mailbox (emb s) with
                                   | [] => I_empty
                                   | _ :: _ => I_head
                                   end)) s)
  | I_empty => ret (RPair VNil false) <$> Unlock s
  | I_head => Some (take_head (λ r, InRecvImmediate (I_ret r)) s)
  | I_ret r => ret (RPair r true) <$> Unlock s
  end.

Definition RecvFor (d : Z) (l : RecvForPc) (s : State) : option State :=
  match l with
  | F_entry =>
      Some (if running (emb s) then goto (InRecvFor d F_dur) s else panic PStop s)
  | F_dur =>
      (* return e.RecvImmediate() *)
      Some (goto (if bool_decide (d ≤ 0) then InRecvImmediate I_entry
                  else InRecvFor d F_lock) s)
  | F_lock => goto (InRecvFor d F_len) <$> Lock Coroutine s
  | F_len =>
      Some (goto (InRecvFor d (match mailbox (emb s) with
                               | [] => F_unlock
                               | _ :: _ => F_len2
                               end)) s)
  | F_unlock => goto (InRecvFor d F_stop) <$> Unlock s
  | F_stop =>
      let '(was, t) := Timer_Stop (receiveTimer (emb s)) in
      Some (goto (InRecvFor d (if was then F_reset else F_tlen)) (set_receiveTimer t s))
  | F_tlen =>
      Some (goto (InRecvFor d (match C (receiveTimer (emb s)) with
                               | Some _ => F_drain
                               | None => F_reset
                               end)) s)
  | F_drain =>
      '(_, t) ← Timer_recv (receiveTimer (emb s));
      Some (goto (InRecvFor d F_reset) (set_receiveTimer t s))
  | F_reset =>
      let t := Timer_Reset d (receiveTimer (emb s)) in
      Some (goto (InRecvFor d (F_sel (gen t))) (set_receiveTimer t s))
  | F_sel g =>
      (* a case that is ready is taken, otherwise the coroutine parks *)
      match Timer_recv (receiveTimer (emb s)) with
      | Some (g', t) =>
          Some (goto (InRecvFor d (F_woken g (ByTimer g'))) (set_receiveTimer t s))
      | None =>
          Some (goto (InRecvFor d (if receiver (emb s) then F_woken g ByReceiver
                                   else F_select g)) s)
      end
  | F_select g =>
      (* the case of e.receiver is taken by [notify]; here: the timer's
         channel, and a closed receiver *)
      match Timer_recv (receiveTimer (emb s)) with
      | Some (g', t) =>
          Some (goto (InRecvFor d (F_woken g (ByTimer g'))) (set_receiveTimer t s))
      | None =>
          if receiver (emb s) then Some (goto (InRecvFor d (F_woken g ByReceiver)) s)
          else None
      end
  | F_woken _ _ =>
      Some (if running (emb s) then goto (InRecvFor d F_relock) s else panic PStop s)
  | F_relock => goto (InRecvFor d F_len2) <$> Lock Coroutine s
  | F_len2 =>
      Some (goto (InRecvFor d (match mailbox (emb s) with
                               | [] => F_empty
                               | _ :: _ => F_head
                               end)) s)
  | F_empty => ret (RPair VNil false) <$> Unlock s
  | F_head => Some (take_head (λ r, InRecvFor d (F_ret r)) s)
  | F_ret r => ret (RPair r true) <$> Unlock s
  end.

Definition Stop (l : StopPc) (s : State) : option State :=
  match l with
  | X_entry =>
      Some (goto (InStop X_set)
              (if running (emb s) then s else log_Printf (self_stop_line (emb s)) s))
  | X_set => Some (goto (InStop X_panic) (set_running false s))
  | X_panic => Some (panic PStop s)
  end.

(** ** The goroutine started by StartFuncName and StartName *)

(** [if _, ok := e.(Stop); ok]: the dynamic type of the recovered value. *)
Definition is_Stop (v : Panic) : bool :=
  match v with PStop => true | _ => false end.

Definition deferred (exit : option Panic) (l : DeferPc) (s : State) : option State :=
  match l with
  | D_running =>
      Some (goto (InDefer exit D_waitTimer) (note_cleaned ClearRunning (set_running false s)))
  | D_waitTimer =>
      Some (goto (InDefer exit D_receiveTimer)
              (note_cleaned StopWaitTimer (set_waitTimer (Timer_Stop (waitTimer (emb s))).2 s)))
  | D_receiveTimer =>
      Some (goto (InDefer exit D_close)
              (note_cleaned StopReceiveTimer
                 (set_receiveTimer (Timer_Stop (receiveTimer (emb s))).2 s)))
  | D_close =>
      (* closing a closed channel panics inside the deferred function *)
      Some (if receiver (emb s) then goto (Repanicked (PError "close of closed channel")) s
            else goto (InDefer exit D_recover) (note_cleaned CloseReceiver (set_receiver true s)))
  | D_recover =>
      Some (match exit with
            | None => goto (Ended None) s
            | Some v => if is_Stop v then goto (Ended (Some v)) s
                        else goto (Repanicked v) s
            end)
  end.

(** The body runs until its next call, its return or its panic. *)
Definition in_body (s : State) : State :=
  match body s (results s) with
  | DoPause d => goto (InPause d P_entry) s
  | DoRecv => goto (InRecv R_entry) s
  | DoRecvFor d => goto (InRecvFor d F_entry) s
  | DoRecvImmediate => goto (InRecvImmediate I_entry) s
  | DoStop => goto (InStop X_entry) s
  | DoReturn => goto (InDefer None D_running) s
  | DoPanic v => panic v s
  end.

Definition coroutine_step (s : State) : option State :=
  match pc s with
  | InBody => Some (in_body s)
  | InPause d l => Pause d l s
  | InRecv l => Recv l s
  | InRecvFor d l => RecvFor d l s
  | InRecvImmediate l => RecvImmediate l s
  | InStop l => Stop l s
  | InDefer exit l => deferred exit l s
  | Ended _ => None
  | Repanicked _ => None
  end.

(** ** Methods of the Ref, run by other goroutines *)

Definition at_holder (i : nat) (h : HolderPc) (s : State) : State :=
  set_holders (<[i := h]> (holders s)) s.

Definition Send (i : nat) (v : Value) (l : SendPc) (s : State) : option State :=
  match l with
  | S_lock => at_holder i (InSend v S_append) <$> Lock (Holder i) s
  | S_append =>
      Some (at_holder i (InSend v S_unlock)
              (note_enqueued v (set_mailbox (mailbox (emb s) ++ [v]) s)))
  | S_unlock => at_holder i (InSend v S_notify) <$> Unlock s
  | S_notify =>
      Some (match notify s with
            | inl s' => at_holder i Returned s'
            | inr p => at_holder i (Panicked p) s
            end)
  end.

Definition RefStop (i : nat) (l : RefStopPc) (s : State) : option State :=
  match l with
  | T_check =>
      Some (if running (emb s) then at_holder i (InRefStop T_set) s
            else at_holder i Returned (log_Printf (ref_stop_line (emb s)) s))
  | T_set => Some (at_holder i (InRefStop T_notify) (set_running false s))
  | T_notify =>
      Some (match notify s with
            | inl s' => at_holder i Returned s'
            | inr p => at_holder i (Panicked p) s
            end)
  end.

Definition Running (s : State) : bool := running (emb s).
Definition Name (s : State) : string := name (emb s).
Definition Id (s : State) : N := id (emb s).

Definition holder_step (i : nat) (s : State) : option State :=
  h ← holders s !! i;
  match h with
  | InSend v l => Send i v l s
  | InRefStop l => RefStop i l s
  | Returned => None
  | Panicked _ => None
  end.

(** ** Schedules *)

Inductive Label :=
| Co                      (* the coroutine executes its next statement *)
| CallSend (v : Value)    (* some goroutine calls ref.Send(v) *)
| CallStop                (* some goroutine calls ref.Stop() *)
| Ho (i : nat)            (* call number i executes its next statement *)
| ExpireWait              (* the runtime expires waitTimer *)
| ExpireReceive.          (* the runtime expires receiveTimer *)

Definition step (l : Label) (s : State) : option State :=
  match l with
  | Co => coroutine_step s
  | CallSend v => Some (set_holders (holders s ++ [InSend v S_lock]) s)
  | CallStop => Some (set_holders (holders s ++ [InRefStop T_check]) s)
  | Ho i => holder_step i s
  | ExpireWait => t ← Timer_expire (waitTimer (emb s)); Some (set_waitTimer t s)
  | ExpireReceive => t ← Timer_expire (receiveTimer (emb s)); Some (set_receiveTimer t s)
  end.

Fixpoint run (sched : list Label) (s : State) : option State :=
  match sched with
  | [] => Some s
  | l :: sched' => s' ← step l s; run sched' s'
  end.

(** ** Start functions (start.go) *)

Definition defaultName : string := "Default Coroutine Name".

(** The state right after the go statement: the goroutine is about to run
    the body.  [q] is the mailbox the Embeddable starts with. *)
Definition started (nm : string) (f : Body) (nextId : N) (q : list Value) : State :=
  {| emb := {| id := nextId; name := nm; waitTimer := NewTimer 0; receiver := false;
               receiveTimer := NewTimer 0; mailbox := q; mailboxLock := None;
               running := true |};
     body := f; pc := InBody; results := []; holders := []; logged := [];
     enqueued := q; dequeued := []; cleaned := [] |}.

(** [nextId++] on a uint64. *)
Definition next_id (nextId : N) : N := ((nextId + 1) mod 2 ^ 64)%N.

(** StartFuncName builds a fresh Embeddable: its mailbox is the nil slice.
    Returns the started coroutine and the new value of [nextId]. *)
Definition StartFuncName (nm : string) (f : Body) (nextId : N) : State * N :=
  (started nm f nextId [], next_id nextId).

Definition StartFunc (f : Body) (nextId : N) : State * N :=
  StartFuncName defaultName f nextId.

(** A Starter: its Start method and the Embeddable it embeds.  StartName
    overwrites every field but the mailbox and its mutex. *)
Record Starter := mkStarter {
  Start_method : Body;
  Embedded : Embeddable
}.

Definition StartName (nm : string) (st : Starter) (nextId : N) : State * N :=
  ({| emb := {| id := nextId; name := nm; waitTimer := NewTimer 0; receiver := false;
                receiveTimer := NewTimer 0; mailbox := mailbox (Embedded st);
                mailboxLock := mailboxLock (Embedded st); running := true |};
      body := Start_method st; pc := InBody; results := []; holders := []; logged := [];
      enqueued := mailbox (Embedded st); dequeued := []; cleaned := [] |},
   next_id nextId).

Definition Start (st : Starter) (nextId : N) : State * N :=
  StartName defaultName st nextId.

(** The zero Embeddable, as embedded in a fresh struct. *)
Definition zero_Embeddable : Embeddable :=
  {| id := 0; name := ""; waitTimer := NewTimer 0; receiver := false;
     receiveTimer := NewTimer 0; mailbox := []; mailboxLock := None; running := false |}.

(** * Invariants of the transition system *)

(** A property kept by every step is kept by every schedule. *)
Lemma run_invariant (P : State → Prop) :
  (∀ l s s', P s → step l s = Some s' → P s') →
  ∀ sched s s', P s → run sched s = Some s' → P s'.
Proof.
  intros Hstep sched. induction sched as [|l sched IH]; intros s s' HP Hrun; simpl in Hrun.
  - by simplify_eq.
  - destruct (step l s) as [s1|] eqn:Hs; simpl in Hrun; [|done].
    eapply IH; [|done]. by eapply Hstep.
Qed.

Lemma run_app (a b : list Label) (s : State) :
  run (a ++ b) s = s' ← run a s; run b s'.
Proof.
  revert s. induction a as [|l a IH]; intros s; simpl; [done|].
  destruct (step l s) as [s1|]; simpl; [apply IH|done].
Qed.

(** Case analysis on one step: who moved, and from which position. *)
Ltac step_cases H :=
  unfold step, coroutine_step, holder_step, Pause, Recv, RecvFor, RecvImmediate,
    Stop, deferred, in_body, Send, RefStop, Lock, Unlock, take_head, notify,
    Timer_recv, Timer_expire, Timer_Stop, Timer_Reset, panic, ret in H;
  repeat (simplify_option_eq; try case_match);
  simplify_option_eq.

(** ** The mailbox is a queue *)

Definition fifo (s : State) : Prop :=
  enqueued s = dequeued s ++ mailbox (emb s).

Lemma fifo_step l s s' : fifo s → step l s = Some s' → fifo s'.
Proof.
  unfold fifo. destruct s as [[] ? p ? ? ? ? ? ?]; simpl. intros HI Hs.
  destruct l; step_cases Hs; simpl in *; subst; simpl;
    rewrite <- ?app_assoc; try done.
Qed.

(** ** The timers

    An armed timer has an empty channel, and what sits in a channel comes
    from the latest arming.  Between the drain and the reset the timer is
    disarmed and its channel is empty. *)

Definition timer_ok (t : Timer) : Prop :=
  (armed t = true → C t = None) ∧ (∀ g, C t = Some g → g = gen t).

Definition drained (t : Timer) : Prop := armed t = false ∧ C t = None.

Definition wait_at (p : Pc) (t : Timer) : Prop :=
  match p with
  | InPause _ P_len => armed t = false
  | InPause _ P_drain => armed t = false ∧ is_Some (C t)
  | InPause _ P_reset => drained t
  | InPause _ (P_wait g) => g = gen t
  | InPause _ (P_woken g g') => g' = g
  | _ => True
  end.

Definition receive_at (p : Pc) (t : Timer) : Prop :=
  match p with
  | InRecvFor _ F_tlen => armed t = false
  | InRecvFor _ F_drain => armed t = false ∧ is_Some (C t)
  | InRecvFor _ F_reset => drained t
  | InRecvFor _ (F_sel g) | InRecvFor _ (F_select g) => g = gen t
  | InRecvFor _ (F_woken g (ByTimer g')) => g' = g
  | _ => True
  end.

Definition timers (s : State) : Prop :=
  timer_ok (waitTimer (emb s)) ∧ timer_ok (receiveTimer (emb s)) ∧
  wait_at (pc s) (waitTimer (emb s)) ∧ receive_at (pc s) (receiveTimer (emb s)).

Lemma timers_step l s s' : timers s → step l s = Some s' → timers s'.
Proof.
  unfold timers, timer_ok, drained.
  destruct s as [[? ? [] ? [] ? ? ?] ? p ? ? ? ? ? ?]; simpl. intros HI Hs.
  destruct l; step_cases Hs; simpl in *; unfold drained in *; simpl in *;
    [intuition (simplify_eq; eauto)..| |];
    (destruct p as [|? []|[]|? []|[]|[]|? []| |]; simpl in *;
     try case_match; unfold drained in *; simpl in *;
     intuition (simplify_eq; eauto)).
Qed.

(** ** The deferred function

    [cleaned_at p] is what the deferred function has executed when the
    goroutine is at [p]. *)

Definition cleaned_at (p : Pc) : list CleanupOp :=
  match p with
  | InDefer _ D_waitTimer => [ClearRunning]
  | InDefer _ D_receiveTimer => [ClearRunning; StopWaitTimer]
  | InDefer _ D_close => [ClearRunning; StopWaitTimer; StopReceiveTimer]
  | InDefer _ D_recover | Ended _ | Repanicked _ =>
      [ClearRunning; StopWaitTimer; StopReceiveTimer; CloseReceiver]
  | _ => []
  end.

Definition CleanupOp_eqb (a b : CleanupOp) : bool :=
  match a, b with
  | ClearRunning, ClearRunning | StopWaitTimer, StopWaitTimer
  | StopReceiveTimer, StopReceiveTimer | CloseReceiver, CloseReceiver => true
  | _, _ => false
  end.

(** Has the deferred function executed [o] when the goroutine is at [p]? *)
Definition did (o : CleanupOp) (p : Pc) : bool :=
  existsb (CleanupOp_eqb o) (cleaned_at p).

(** The goroutine is gone. *)
Definition left (p : Pc) : Prop :=
  match p with Ended _ | Repanicked _ => True | _ => False end.

Definition torn_down (e : Embeddable) : Prop :=
  running e = false ∧ armed (waitTimer e) = false ∧
  armed (receiveTimer e) = false ∧ receiver e = true.

Definition teardown (s : State) : Prop :=
  cleaned s = cleaned_at (pc s) ∧
  receiver (emb s) = did CloseReceiver (pc s) ∧
  (did ClearRunning (pc s) = true → running (emb s) = false) ∧
  (did StopWaitTimer (pc s) = true → armed (waitTimer (emb s)) = false) ∧
  (did StopReceiveTimer (pc s) = true → armed (receiveTimer (emb s)) = false) ∧
  match pc s with
  | Ended exit => exit = None ∨ exit = Some PStop
  | Repanicked v => v ≠ PStop
  | _ => True
  end.

Lemma is_Stop_true v : is_Stop v = true → v = PStop.
Proof. by destruct v. Qed.

Lemma is_Stop_false v : is_Stop v = false → v ≠ PStop.
Proof. by destruct v. Qed.

Lemma teardown_step l s s' : teardown s → step l s = Some s' → teardown s'.
Proof.
  unfold teardown.
  destruct s as [[? ? [] ? [] ? ? ?] ? p ? ? ? ? ? ?]; simpl.
  intros (Hc & Hr & Hrun & Hw & Hrt & Hp) Hs.
  destruct l; step_cases Hs; simpl in *;
    repeat match goal with
           | H : is_Stop _ = true |- _ => apply is_Stop_true in H
           | H : is_Stop _ = false |- _ => apply is_Stop_false in H
           end;
    try (destruct p as [|? []|[]|? []|[]|[]|? []| |]; simpl in * );
    subst; repeat split; auto; try congruence.
Qed.

(** ** The mailbox mutex

    Positions between a Lock and its Unlock. *)

Definition in_section (p : Pc) : bool :=
  match p with
  | InRecv (R_len | R_unlock | R_head | R_ret _) => true
  | InRecvFor _ (F_len | F_unlock | F_len2 | F_empty | F_head | F_ret _) => true
  | InRecvImmediate (I_len | I_empty | I_head | I_ret _) => true
  | _ => false
  end.

Definition holder_in_section (h : HolderPc) : bool :=
  match h with
  | InSend _ (S_append | S_unlock) => true
  | _ => false
  end.

(** Past the body: a panic inside a section leaves the mutex locked. *)
Definition exiting (p : Pc) : bool :=
  match p with
  | InDefer _ _ | Ended _ | Repanicked _ => true
  | _ => false
  end.

Definition mutex (s : State) : Prop :=
  (in_section (pc s) = true → mailboxLock (emb s) = Some Coroutine) ∧
  (∀ i h, holders s !! i = Some h → holder_in_section h = true →
          mailboxLock (emb s) = Some (Holder i)) ∧
  (mailboxLock (emb s) = Some Coroutine →
   in_section (pc s) = true ∨ exiting (pc s) = true).

Lemma lookup_insert_cases (hs : list HolderPc) (i j : nat) (h hj : HolderPc) :
  <[i:=h]> hs !! j = Some hj →
  (j = i ∧ hj = h) ∨ (j ≠ i ∧ hs !! j = Some hj).
Proof.
  intros H. destruct (decide (i = j)) as [->|Hne].
  - left. split; [done|].
    rewrite list_lookup_insert_eq in H; [by simplify_eq|].
    apply lookup_lt_Some in H. by rewrite length_insert in H.
  - right. rewrite list_lookup_insert_ne in H; done.
Qed.

Lemma lookup_snoc_cases (hs : list HolderPc) (j : nat) (h hj : HolderPc) :
  (hs ++ [h]) !! j = Some hj → hs !! j = Some hj ∨ hj = h.
Proof.
  intros H. destruct (decide (j < length hs)%nat).
  - left. by rewrite lookup_app_l in H.
  - right. rewrite lookup_app_r in H by lia.
    destruct (j - length hs)%nat; simpl in H; by simplify_eq.
Qed.

Lemma mutex_step l s s' : mutex s → step l s = Some s' → mutex s'.
Proof.
  unfold mutex.
  destruct s as [[? ? ? ? ? ? lk ?] ? p ? hs ? ? ? ?]; simpl.
  intros (Hco & Hho & Hown) Hs.
  destruct l; step_cases Hs; simpl in *; (split; [try done|split]);
    try (intros j hj Hj Hin);
    repeat match goal with
           | H : <[_:=_]> _ !! _ = Some _ |- _ =>
               apply lookup_insert_cases in H as [[-> ->]|[? ?]]
           | H : (_ ++ [_]) !! _ = Some _ |- _ =>
               apply lookup_snoc_cases in H as [?| ->]
           end;
    simpl in *; try done; eauto;
    try (intros Hsec; try specialize (Hco Hsec));
    repeat match goal with
           | H1 : _ !! ?a = Some ?x |- _ =>
               let F := fresh in pose proof (Hho a x H1) as F; simpl in F; revert H1
           end; intros;
    repeat match goal with
           | H : true = true → _ |- _ => specialize (H eq_refl)
           | H : ?a = true → _, H' : ?a = true |- _ => specialize (H H')
           end;
    try congruence; try (by auto); try (destruct Hown; [done|congruence|congruence]).
Qed.

(** ** What the body has received *)

Definition received_of (r : Result) : list Value :=
  match r with
  | RValue v | RPair v true => [v]
  | _ => []
  end.

(** The messages the calls of the body returned, oldest first. *)
Definition received (rs : list Result) : list Value := rs ≫= received_of.

(** A message taken from the mailbox and not yet returned. *)
Definition in_hand (p : Pc) : list Value :=
  match p with
  | InRecv (R_ret r) | InRecvFor _ (F_ret r) | InRecvImmediate (I_ret r) => [r]
  | _ => []
  end.

Definition delivery (s : State) : Prop :=
  dequeued s = received (results s) ++ in_hand (pc s).

Lemma received_snoc rs r : received (rs ++ [r]) = received rs ++ received_of r.
Proof. unfold received. rewrite bind_app. simpl. by rewrite app_nil_r. Qed.

Lemma delivery_step l s s' : delivery s → step l s = Some s' → delivery s'.
Proof.
  unfold delivery. destruct s as [[] ? p ? ? ? ? ? ?]; simpl. intros HI Hs.
  destruct l; step_cases Hs; simpl in *; subst; simpl;
    rewrite ?received_snoc; simpl; rewrite ?app_nil_r; try done.
Qed.

(** ** Reachable states *)

(** What both start functions establish before the go statement. *)
Definition just_started (s : State) : Prop :=
  pc s = InBody ∧ results s = [] ∧ holders s = [] ∧ cleaned s = [] ∧
  dequeued s = [] ∧ enqueued s = mailbox (emb s) ∧
  mailboxLock (emb s) = None ∧ receiver (emb s) = false ∧ running (emb s) = true ∧
  waitTimer (emb s) = NewTimer 0 ∧ receiveTimer (emb s) = NewTimer 0.

Definition reachable (s : State) : Prop :=
  ∃ s0 sched, just_started s0 ∧ run sched s0 = Some s.

Lemma StartFuncName_started nm f n : just_started (StartFuncName nm f n).1.
Proof. by repeat split. Qed.

Lemma StartName_started nm st n :
  mailboxLock (Embedded st) = None → just_started (StartName nm st n).1.
Proof. intros H. by repeat split. Qed.

Definition invariant (s : State) : Prop :=
  fifo s ∧ delivery s ∧ timers s ∧ teardown s ∧ mutex s.

Lemma invariant_started s : just_started s → invariant s.
Proof.
  destruct s as [[] ? ? ? ? ? ? ? ?]; unfold just_started; simpl.
  intros (-> & -> & -> & -> & -> & -> & -> & -> & -> & -> & ->).
  repeat split; simpl; try done; intros; simplify_eq.
Qed.

Lemma invariant_step l s s' : invariant s → step l s = Some s' → invariant s'.
Proof.
  intros (? & ? & ? & ? & ?) Hs. unfold invariant.
  split_and!;
    [by eapply fifo_step|by eapply delivery_step|by eapply timers_step
    |by eapply teardown_step|by eapply mutex_step].
Qed.

Lemma invariant_reachable s : reachable s → invariant s.
Proof.
  intros (s0 & sched & H0 & Hrun).
  eapply (run_invariant invariant); eauto using invariant_step, invariant_started.
Qed.

Lemma reachable_run sched s s' : reachable s → run sched s = Some s' → reachable s'.
Proof.
  intros (s0 & sched0 & H0 & Hrun) Hs. exists s0, (sched0 ++ sched).
  split; [done|]. rewrite run_app, Hrun. done.
Qed.

(** * The mailbox *)


(** Send appends at the tail. *)
Lemma Send_appends i v s :
  Send i v S_append s =
  Some (at_holder i (InSend v S_unlock)
          (note_enqueued v (set_mailbox (mailbox (emb s) ++ [v]) s))).
Proof. done. Qed.

(** Every receive takes the head. *)
Lemma take_head_cons k r q s :
  mailbox (emb s) = r :: q →
  take_head k s = goto (k r) (note_dequeued r (set_mailbox q s)).
Proof. unfold take_head. by intros ->. Qed.

Definition echo : Body := λ _, DoRecv.

(** Three sends by one producer, then two receives. *)
Definition three_sends : list Label :=
  [CallSend (VInt 0); Ho 0; Ho 0; Ho 0; Ho 0;
   CallSend (VInt 1); Ho 1; Ho 1; Ho 1; Ho 1;
   CallSend (VInt 2); Ho 2; Ho 2; Ho 2; Ho 2;
   Co; Co; Co; Co; Co; Co;
   Co; Co; Co; Co; Co; Co]%nat.


(** * The goroutine wrapper *)

Definition all_cleanup : list CleanupOp :=
  [ClearRunning; StopWaitTimer; StopReceiveTimer; CloseReceiver].

(** What the recover handler makes of the way the body ended. *)
Definition outcome (exit : option Panic) : Pc :=
  match exit with
  | None => Ended None
  | Some v => if is_Stop v then Ended (Some v) else Repanicked v
  end.

Lemma snoc4 {A} (l : list A) a b c d :
  (((l ++ [a]) ++ [b]) ++ [c]) ++ [d] = l ++ [a; b; c; d].
Proof. induction l as [|x l IH]; simpl; [reflexivity|]. f_equal. exact IH. Qed.

Lemma deferred_runs exit s :
  pc s = InDefer exit D_running → receiver (emb s) = false →
  ∃ s', run [Co; Co; Co; Co; Co] s = Some s' ∧ pc s' = outcome exit ∧
        cleaned s' = cleaned s ++ all_cleanup ∧ torn_down (emb s') ∧
        results s' = results s ∧ mailbox (emb s') = mailbox (emb s) ∧
        logged s' = logged s.
Proof.
  destruct s as [[] ? p ? ? ? ? ? ?]; simpl. intros -> ->.
  eexists. split; [vm_compute; reflexivity|].
  destruct exit as [[]|]; vm_compute; repeat split; apply snoc4.
Qed.

Lemma reachable_open exit l s :
  reachable s → pc s = InDefer exit l → l ≠ D_recover → receiver (emb s) = false.
Proof.
  intros Hr Hp Hl. destruct (invariant_reachable s Hr) as (_ & _ & _ & Ht & _).
  destruct Ht as (_ & Hc & _). rewrite Hc, Hp. by destruct l.
Qed.

Lemma exit_enters_deferred s s' :
  step Co s = Some s' → exiting (pc s) = false → exiting (pc s') = true →
  ∃ exit, pc s' = InDefer exit D_running.
Proof.
  destruct s as [[] ? p ? ? ? ? ? ?]; simpl. intros Hs He He'.
  step_cases Hs; simpl in *; try done; eauto.
Qed.

(** C3. On every exit path of the body the deferred function runs once:
    its four statements are executed in order, each at most once, none
    before the body is left; the goroutine is only gone after all four, with
    the flag cleared, both timers stopped and the channel closed.  Every
    way out of the body enters the deferred function at its first
    statement, and from there the goroutine completes it. *)
Theorem cleanup_exactly_once s0 sched s :
  just_started s0 → run sched s0 = Some s →
  cleaned s = cleaned_at (pc s) ∧
  (exiting (pc s) = false → cleaned s = []) ∧
  (left (pc s) → cleaned s = all_cleanup ∧ torn_down (emb s)) ∧
  (∀ s', step Co s = Some s' → exiting (pc s) = false → exiting (pc s') = true →
         ∃ exit, pc s' = InDefer exit D_running) ∧
  (∀ exit, pc s = InDefer exit D_running →
           ∃ s', run [Co; Co; Co; Co; Co] s = Some s' ∧ left (pc s') ∧
                 cleaned s' = all_cleanup ∧ torn_down (emb s')).
Proof.
  intros H0 Hrun.
  assert (Hr : reachable s) by (by exists s0, sched).
  destruct (invariant_reachable s Hr) as (_ & _ & _ & Ht & _).
  destruct Ht as (Hc & Hcl & Hrn & Hw & Hrt & _).
  split; [done|]. split; [|split; [|split]].
  - rewrite Hc. by destruct (pc s) as [|? []|[]|? []|[]|[]|? []| |].
  - intros Hl. rewrite Hc. unfold torn_down.
    destruct (pc s) as [|? []|[]|? []|[]|[]|? []| |] eqn:Hp; simpl in *; try done;
      rewrite Hcl; repeat split; auto.
  - intros s' Hs He He'. by eapply exit_enters_deferred.
  - intros exit Hp.
    destruct (deferred_runs exit s Hp) as (s' & Hs' & Hp' & Hcs & Htd & _).
    { eapply reachable_open; done. }
    exists s'. rewrite Hcs, Hc, Hp, Hp'. simpl.
    split; [done|]. split; [|done].
    unfold outcome. destruct exit as [v|]; [destruct (is_Stop v)|]; done.
Qed.

Definition panics_at_once : Body := λ _, DoPanic (PValue (VString "boom")).

Lemma cleanup_exactly_once_witness :
  ∃ s, run [Co; Co; Co; Co; Co; Co] (StartFunc panics_at_once 1).1 = Some s ∧
       pc s = Repanicked (PValue (VString "boom")) ∧
       cleaned s = cleaned_at (pc s).
Proof.
  eexists. split; [vm_compute; reflexivity|]. split; [reflexivity|].
  refine (proj1 (cleanup_exactly_once (StartFunc panics_at_once 1).1
                   [Co; Co; Co; Co; Co; Co] _ (StartFuncName_started _ _ _) _)).
  vm_compute. reflexivity.
Defined.

Lemma outcome_cases exit :
  (outcome exit = Ended exit ∧ (exit = None ∨ exit = Some PStop)) ∨
  (∃ v, exit = Some v ∧ v ≠ PStop ∧ outcome exit = Repanicked v).
Proof. destruct exit as [[]|]; simpl; eauto. Qed.




Definition stops_itself : Body := λ _, DoStop.


(** * Stop on a coroutine that is not running *)

(** [sub] occurs in [line]. *)
Definition mentions (sub line : string) : Prop :=
  ∃ pre post, line = pre +:+ sub +:+ post.

Lemma append_assoc (a b c : string) : (a +:+ b) +:+ c = a +:+ (b +:+ c).
Proof.
  induction a as [|x a IH]; [reflexivity|].
  change (String x ((a +:+ b) +:+ c) = String x (a +:+ (b +:+ c))).
  f_equal. exact IH.
Qed.

Lemma self_stop_line_mentions e :
  mentions (fmt_uint (id e)) (self_stop_line e) ∧ mentions (name e) (self_stop_line e).
Proof.
  unfold self_stop_line. split.
  - eexists "Coroutine [", _. reflexivity.
  - eexists ("Coroutine [" +:+ fmt_uint (id e) +:+ " / "), _.
    rewrite !append_assoc. reflexivity.
Qed.

Lemma ref_stop_line_mentions e :
  mentions (fmt_uint (id e)) (ref_stop_line e) ∧ mentions (name e) (ref_stop_line e).
Proof.
  unfold ref_stop_line. split.
  - eexists "Coroutine [", _. reflexivity.
  - eexists ("Coroutine [" +:+ fmt_uint (id e) +:+ " / "), _.
    rewrite !append_assoc. reflexivity.
Qed.

(** C9. Stop on a coroutine whose flag is already false.  Through the Ref:
    the call returns in its first statement, having logged one line that
    mentions the id and the name, and changes nothing else.  By the
    coroutine itself: it logs such a line, leaves the Embeddable as it was
    and unwinds with the Stop value, which the deferred function turns into
    a silent end of the goroutine, not a re-panic. *)
Theorem Stop_when_not_running s :
  running (emb s) = false →
  (∀ i, holders s !! i = Some (InRefStop T_check) →
        ∃ s', step (Ho i) s = Some s' ∧
              holders s' = <[i := Returned]> (holders s) ∧
              logged s' = logged s ++ [ref_stop_line (emb s)] ∧
              emb s' = emb s ∧ pc s' = pc s ∧ results s' = results s) ∧
  (pc s = InStop X_entry →
        ∃ s', run [Co; Co; Co] s = Some s' ∧
              pc s' = InDefer (Some PStop) D_running ∧
              logged s' = logged s ++ [self_stop_line (emb s)] ∧
              emb s' = emb s ∧ results s' = results s ∧ holders s' = holders s ∧
              outcome (Some PStop) = Ended (Some PStop)) ∧
  mentions (fmt_uint (id (emb s))) (ref_stop_line (emb s)) ∧
  mentions (name (emb s)) (ref_stop_line (emb s)) ∧
  mentions (fmt_uint (id (emb s))) (self_stop_line (emb s)) ∧
  mentions (name (emb s)) (self_stop_line (emb s)).
Proof.
  intros Hrun. split; [|split].
  - intros i Hi. unfold step, holder_step. rewrite Hi. simpl.
    unfold RefStop. rewrite Hrun. eexists. split; [reflexivity|]. done.
  - intros Hp. destruct s as [[] ? p ? ? ? ? ? ?]; simpl in *. subst.
    eexists. split; [vm_compute; reflexivity|]. done.
  - pose proof (ref_stop_line_mentions (emb s)).
    pose proof (self_stop_line_mentions (emb s)). tauto.
Qed.

(** A body that returns at once. *)
Definition returns_at_once : Body := λ _, DoReturn.

(** The coroutine has ended; then some goroutine calls ref.Stop(). *)
Lemma Stop_when_not_running_witness :
  ∃ s s', run [Co; Co; Co; Co; Co; Co; CallStop] (StartFuncName "worker" returns_at_once 7).1
          = Some s ∧
          step (Ho 0) s = Some s' ∧
          holders s' = [Returned] ∧
          logged s' = ["Coroutine [7 / worker] attempted to be stopped when it isn't running, possible bug found."] ∧
          emb s' = emb s.
Proof.
  eexists. 
  match goal with
  | |- ∃ s', ?R = Some ?s ∧ _ =>
      assert (Hr : R = Some s) by (vm_compute; reflexivity)
  end.
  match type of Hr with
  | _ = Some ?s =>
      destruct (proj1 (Stop_when_not_running s eq_refl) 0%nat eq_refl)
        as (s' & Hs' & Hh & Hl & He & _)
  end.
  exists s'. split; [exact Hr|]. split; [exact Hs'|].
  split; [exact Hh|]. split; [exact Hl|exact He].
Defined.

(** * Send after the coroutine has ended *)

(** The notify of Send or of the Ref's Stop on a closed channel. *)
Lemma notify_closed s :
  receiver (emb s) = true → notify s = inr (PError "send on closed channel").
Proof. unfold notify. by intros ->. Qed.

(** Once the goroutine is gone the channel is closed. *)
Lemma left_closed s : reachable s → left (pc s) → receiver (emb s) = true.
Proof.
  intros Hr Hl. destruct (invariant_reachable s Hr) as (_ & _ & _ & Ht & _).
  destruct Ht as (_ & Hc & _). rewrite Hc.
  by destruct (pc s) as [|? []|[]|? []|[]|[]|? []| |].
Qed.

(** C1. The body returns, the deferred function closes the receiver; a
    Send(1) made afterwards appends its message and then panics in the
    sender's goroutine at the select of line 195. *)
Theorem Send_after_end_panics :
  ∃ s, run [Co; Co; Co; Co; Co; Co; CallSend (VInt 1); Ho 0; Ho 0; Ho 0; Ho 0]%nat
           (StartFunc returns_at_once 1).1 = Some s ∧
       pc s = Ended None ∧
       running (emb s) = false ∧
       mailbox (emb s) = [VInt 1] ∧
       holders s = [Panicked (PError "send on closed channel")].
Proof. eexists. split; [vm_compute; reflexivity|]. done. Qed.

(** * A late notify wakes Recv on an empty mailbox *)

(** Send(7) appends and unlocks; the coroutine receives 7 and calls Recv
    again, finds the mailbox empty and parks; only now the sender runs its
    select. *)
Definition late_notify : list Label :=
  [CallSend (VInt 7); Ho 0; Ho 0; Ho 0;
   Co; Co; Co; Co; Co; Co;
   Co; Co; Co; Co; Co; Co;
   Ho 0]%nat.

(** C10. After [late_notify] the coroutine is woken in Recv with the flag
    still true and the mailbox empty; it locks, indexes mailbox[0] and
    panics with a run-time error, which the deferred function re-panics. *)
Theorem Recv_woken_on_empty_mailbox :
  ∃ s s' s'',
    run late_notify (StartFunc echo 1).1 = Some s ∧
    pc s = InRecv R_woken ∧ running (emb s) = true ∧ mailbox (emb s) = [] ∧
    results s = [RValue (VInt 7)] ∧
    run [Co; Co] s = Some s' ∧
    pc s' = InRecv R_head ∧ mailbox (emb s') = [] ∧
    run [Co; Co; Co; Co; Co; Co] s' = Some s'' ∧
    pc s'' = Repanicked (PError "index out of range") ∧
    mailboxLock (emb s'') = Some Coroutine.
Proof.
  eexists. eexists. eexists.
  split; [vm_compute; reflexivity|]. do 4 (split; [reflexivity|]).
  split; [vm_compute; reflexivity|]. do 2 (split; [reflexivity|]).
  split; [vm_compute; reflexivity|]. done.
Qed.

Definition polls : Body := λ _, DoRecvFor 5.

(** The same schedule against RecvFor, whose line 121 looks at the mailbox
    again after the wake: it returns (nil, false). *)
Lemma RecvFor_woken_on_empty_mailbox :
  ∃ s s',
    run ([CallSend (VInt 7); Ho 0; Ho 0; Ho 0;
          Co; Co; Co; Co; Co; Co; Co; Co;
          Co; Co; Co; Co; Co; Co; Co; Co; Co;
          Ho 0])%nat (StartFunc polls 1).1 = Some s ∧
    (∃ g, pc s = InRecvFor 5 (F_woken g ByReceiver)) ∧ mailbox (emb s) = [] ∧
    run [Co; Co; Co; Co] s = Some s' ∧
    pc s' = InBody ∧ results s' = [RPair (VInt 7) true; RPair VNil false].
Proof.
  eexists. eexists.
  split; [vm_compute; reflexivity|]. split; [by eexists|]. split; [reflexivity|].
  split; [vm_compute; reflexivity|]. done.
Qed.

(** * The flag is re-read outside the mailbox section *)

(** The positions at which a suspending receive reads [running] after a
    wake (embed.go:72 and 114). *)
Definition rechecks_running (p : Pc) : bool :=
  match p with
  | InRecv R_woken | InRecvFor _ (F_woken _ _) => true
  | _ => false
  end.



(** The coroutine parks in Recv; a Send(7) wakes it. *)
Definition woken_by_Send : list Label :=
  [Co; Co; Co; Co; Co; Co; CallSend (VInt 7); Ho 0; Ho 0; Ho 0; Ho 0]%nat.


(** After the re-read at line 72 saw true, a whole ref.Stop() runs before
    the Lock of line 76: Recv still returns the message. *)
Lemma Recv_returns_after_Stop :
  ∃ s s',
    run (woken_by_Send ++ [Co; CallStop; Ho 1; Ho 1; Ho 1])%nat (StartFunc echo 1).1
      = Some s ∧
    pc s = InRecv R_relock ∧ running (emb s) = false ∧
    holders s = [Returned; Returned] ∧
    run [Co; Co; Co] s = Some s' ∧
    pc s' = InBody ∧ results s' = [RValue (VInt 7)] ∧ running (emb s') = false.
Proof.
  eexists. eexists. split; [vm_compute; reflexivity|].
  do 3 (split; [reflexivity|]). split; [vm_compute; reflexivity|]. done.
Qed.

(** A Send that runs between the Unlock of line 69 and the receive of line
    70 finds nobody parked: the coroutine then parks although the mailbox
    holds a message, and no call is left to wake it. *)
Lemma Recv_parks_on_nonempty_mailbox :
  ∃ s,
    run [Co; Co; Co; Co; Co; CallSend (VInt 7); Ho 0; Ho 0; Ho 0; Ho 0; Co]%nat
        (StartFunc echo 1).1 = Some s ∧
    pc s = InRecv R_wait ∧ mailbox (emb s) = [VInt 7] ∧
    holders s = [Returned] ∧ step Co s = None.
Proof. eexists. split; [vm_compute; reflexivity|]. done. Qed.




(** * A stop that arrives while the coroutine is suspended *)

(** The coroutine is parked: in Recv on the receiver, in RecvFor on the
    receiver and the receive timer, in Pause on the wait timer. *)
Definition suspended (p : Pc) : bool :=
  match p with
  | InRecv R_wait | InRecvFor _ (F_select _) | InPause _ (P_wait _) => true
  | _ => false
  end.






(** The notify of ref.Stop() wakes a coroutine parked on the receiver, and
    the coroutine then unwinds. *)
Lemma Stop_wakes_receiver i s :
  pc s = InRecv R_wait ∨ (∃ d g, pc s = InRecvFor d (F_select g)) →
  receiver (emb s) = false →
  holders s !! i = Some (InRefStop T_set) →
  ∃ s', run [Ho i; Ho i; Co] s = Some s' ∧
        pc s' = InDefer (Some PStop) D_running ∧
        results s' = results s ∧ mailbox (emb s') = mailbox (emb s) ∧
        holders s' = <[i := Returned]> (holders s).
Proof.
  destruct s as [[] ? q ? hs ? ? ? ?]; simpl. intros Hp -> Hi.
  assert (Hi' : <[i:=InRefStop T_notify]> hs !! i = Some (InRefStop T_notify)).
  { apply list_lookup_insert_eq. by eapply lookup_lt_Some. }
  destruct Hp as [->|(d & g & ->)];
    unfold run, step, holder_step; simpl; rewrite Hi; simpl; rewrite Hi'; simpl;
    eexists; (split; [reflexivity|]); simpl;
    rewrite list_insert_insert_eq; done.
Qed.


(** * RecvFor with a duration that is not positive *)

(** The coroutine is inside a method of Embeddable. *)
Definition in_call (p : Pc) : bool :=
  match p with
  | InPause _ _ | InRecv _ | InRecvFor _ _ | InRecvImmediate _ | InStop _ => true
  | _ => false
  end.

(** The coroutine runs its call with nobody else moving, for at most [n]
    statements: until the call returns or panics, or cannot go on. *)
Fixpoint alone (n : nat) (s : State) : State :=
  match n with
  | O => s
  | S n' =>
      if in_call (pc s) then
        match step Co s with
        | Some s' => alone n' s'
        | None => s
        end
      else s
  end.

Lemma alone_step n s s' :
  in_call (pc s) = true → step Co s = Some s' → alone (S n) s = alone n s'.
Proof. simpl. by intros -> ->. Qed.

Lemma alone_done n s : in_call (pc s) = false → alone n s = s.
Proof. destruct n; simpl; [done|]. by intros ->. Qed.

Lemma alone_blocked n s : step Co s = None → alone n s = s.
Proof. destruct n; simpl; [done|]. intros ->. by destruct (in_call (pc s)). Qed.

Lemma alone_add n m s : alone (n + m) s = alone m (alone n s).
Proof.
  revert s. induction n as [|n IH]; intros s; [done|].
  change (S n + m)%nat with (S (n + m)).
  destruct (in_call (pc s)) eqn:Hc; [|by rewrite !(alone_done _ _ Hc)].
  destruct (step Co s) as [s'|] eqn:Hs.
  - rewrite !(alone_step _ _ _ Hc Hs). apply IH.
  - by rewrite !(alone_blocked _ _ Hs).
Qed.

(** The call is over, or the coroutine cannot move. *)
Definition at_rest (s : State) : Prop :=
  in_call (pc s) = false ∨ step Co s = None.

Lemma alone_at_rest n s : at_rest s → alone n s = s.
Proof. intros [?|?]; [by apply alone_done|by apply alone_blocked]. Qed.

(** RecvImmediate is over after six statements, or waits for the mutex. *)
Lemma RecvImmediate_alone s :
  at_rest (alone 6 (goto (InRecvImmediate I_entry) s)).
Proof.
  destruct s as [[? ? ? ? ? q lk rn] ? p ? ? ? ? ? ?].
  destruct rn; [|left; reflexivity].
  destruct lk as [o|]; [right; reflexivity|].
  destruct q; left; reflexivity.
Qed.

Lemma RecvFor_dur d s :
  d ≤ 0 →
  step Co (goto (InRecvFor d F_dur) s) = Some (goto (InRecvImmediate I_entry) s).
Proof.
  intros Hd. unfold step, coroutine_step, goto at 1; simpl.
  by rewrite bool_decide_eq_true_2.
Qed.

Lemma run_cons l k s s1 : step l s = Some s1 → run (l :: k) s = run k s1.
Proof. simpl. by intros ->. Qed.

Lemma entry_steps d s :
  step Co (goto (InRecvFor d F_entry) s) =
  Some (if running (emb s) then goto (InRecvFor d F_dur) s else panic PStop s) ∧
  step Co (goto (InRecvImmediate I_entry) s) =
  Some (if running (emb s) then goto (InRecvImmediate I_lock) s else panic PStop s).
Proof. by destruct s as [[? ? ? ? ? ? ? []] ? ? ? ? ? ? ? ?]. Qed.

(** C6. For d <= 0, RecvFor(d) does what RecvImmediate() does.  With the
    flag false both panic with the Stop value in their first statement, in
    the same state.  With the flag true RecvFor is, two statements later,
    at the first statement of RecvImmediate in an unchanged state.  Run
    alone, the two calls end in the same state (same result handed to the
    body, same mailbox), and with the mutex free RecvFor(d) ends without
    ever parking. *)
Theorem RecvFor_nonpositive d s :
  d ≤ 0 →
  (running (emb s) = false →
   step Co (goto (InRecvFor d F_entry) s) = step Co (goto (InRecvImmediate I_entry) s)) ∧
  (running (emb s) = true →
   run [Co; Co] (goto (InRecvFor d F_entry) s) = Some (goto (InRecvImmediate I_entry) s)) ∧
  (∀ n, (8 ≤ n)%nat →
        alone n (goto (InRecvFor d F_entry) s) = alone n (goto (InRecvImmediate I_entry) s)) ∧
  (mailboxLock (emb s) = None →
   in_call (pc (alone 8 (goto (InRecvFor d F_entry) s))) = false).
Proof.
  intros Hd.
  destruct (entry_steps d s) as [HF HI].
  split; [|split; [|split]].
  - intros Hrn. rewrite HF, HI, Hrn. done.
  - intros Hrn. rewrite Hrn in HF.
    rewrite (run_cons _ _ _ _ HF), (run_cons _ _ _ _ (RecvFor_dur d s Hd)). done.
  - intros n Hn.
    destruct (running (emb s)) eqn:Hrn.
    + replace n with (2 + (6 + (n - 8)))%nat at 1 by lia.
      replace n with (6 + (2 + (n - 8)))%nat at 2 by lia.
      change (2 + (6 + (n - 8)))%nat with (S (S (6 + (n - 8)))).
      rewrite (alone_step _ (goto (InRecvFor d F_entry) s) _ eq_refl HF).
      rewrite (alone_step _ (goto (InRecvFor d F_dur) s) _ eq_refl (RecvFor_dur d s Hd)).
      rewrite (alone_add 6 (n - 8)), (alone_add 6 (2 + (n - 8))).
      by rewrite !(alone_at_rest _ _ (RecvImmediate_alone s)).
    + destruct n as [|n]; [lia|].
      by rewrite (alone_step _ (goto (InRecvFor d F_entry) s) _ eq_refl HF), (alone_step _ (goto (InRecvImmediate I_entry) s) _ eq_refl HI).
  - intros Hl.
    destruct (running (emb s)) eqn:Hrn.
    + change 8%nat with (S (S 6)).
      rewrite (alone_step _ (goto (InRecvFor d F_entry) s) _ eq_refl HF).
      rewrite (alone_step _ (goto (InRecvFor d F_dur) s) _ eq_refl (RecvFor_dur d s Hd)).
      destruct s as [[? ? ? ? ? q lk rn] ? p ? ? ? ? ? ?]; simpl in Hl, Hrn. subst.
      by destruct q.
    + rewrite (alone_step _ (goto (InRecvFor d F_entry) s) _ eq_refl HF). by rewrite alone_done.
Qed.

Definition polls_once : Body := λ _, DoRecvFor 0.

(** RecvFor(0) and RecvImmediate() on a mailbox holding 4 and 5. *)
Lemma RecvFor_nonpositive_witness :
  let s := started "w" polls_once 1 [VInt 4; VInt 5] in
  alone 8 (goto (InRecvFor 0 F_entry) s) = alone 8 (goto (InRecvImmediate I_entry) s) ∧
  results (alone 8 (goto (InRecvFor 0 F_entry) s)) = [RPair (VInt 4) true] ∧
  mailbox (emb (alone 8 (goto (InRecvFor 0 F_entry) s))) = [VInt 5].
Proof.
  intros s. split; [|split; vm_compute; reflexivity].
  refine (proj1 (proj2 (proj2 (RecvFor_nonpositive 0 s _))) 8%nat _).
  - lia.
  - lia.
Defined.

(** * Reuse of the timers *)




Definition naps : Body := λ _, DoPause 10.


(** Two Pause(10) in a row: the second wakes on its own arming. *)
Example two_pauses :
  ∃ s, run [ExpireWait; Co; Co; Co; Co; Co; Co; ExpireWait; Co; Co;
            Co; Co; Co; Co; Co; ExpireWait; Co]
           (StartFunc naps 1).1 = Some s ∧
       pc s = InPause 10 (P_woken 2 2) ∧ results s = [RUnit].
Proof. eexists. split; [vm_compute; reflexivity|]. done. Qed.

(** * Further properties of the package *)

(** ** The flag, the id and the name *)

Lemma running_step l s s' :
  running (emb s) = false → step l s = Some s' → running (emb s') = false.
Proof.
  destruct s as [[? ? ? ? ? ? ? rn] ? p ? ? ? ? ? ?]; simpl. intros -> Hs.
  destruct l; step_cases Hs; simpl in *; done.
Qed.

(** X1. No statement of the package sets [running] back to true: once
    Running() has reported false it reports false after every schedule. *)
Theorem Running_stays_false sched s s' :
  Running s = false → run sched s = Some s' → Running s' = false.
Proof.
  intros H Hrun.
  by eapply (run_invariant (λ s, running (emb s) = false)); eauto using running_step.
Qed.

(** ref.Stop() completes; whatever follows, Running() is false. *)
Lemma Running_stays_false_witness :
  ∃ s s', run [CallStop; Ho 0; Ho 0; Ho 0]%nat (StartFunc echo 1).1 = Some s ∧
          Running s = false ∧
          run [Co; Co; CallSend (VInt 3); Ho 1; Ho 1]%nat s = Some s' ∧
          Running s' = false.
Proof.
  eexists. eexists. split; [vm_compute; reflexivity|]. split; [reflexivity|].
  match goal with
  | |- run ?k ?s = Some ?s' ∧ _ =>
      assert (Hk : run k s = Some s') by (vm_compute; reflexivity);
      split; [exact Hk|];
      exact (Running_stays_false k s s' eq_refl Hk)
  end.
Defined.

Lemma identity_step l s s' :
  step l s = Some s' → id (emb s') = id (emb s) ∧ name (emb s') = name (emb s).
Proof.
  destruct s as [[] ? p ? ? ? ? ? ?]; simpl. intros Hs.
  destruct l; step_cases Hs; simpl in *; done.
Qed.

(** X2. Id() and Name() answer the same for the whole life of the
    coroutine and after it: no statement writes the two fields. *)
Theorem Id_Name_stable sched s s' :
  run sched s = Some s' → Id s' = Id s ∧ Name s' = Name s.
Proof.
  revert s. induction sched as [|l sched IH]; intros s Hrun; simpl in Hrun.
  - by simplify_eq.
  - destruct (step l s) as [s1|] eqn:Hs; simpl in Hrun; [|done].
    destruct (identity_step _ _ _ Hs) as [Hi Hn].
    destruct (IH _ Hrun) as [Hi' Hn']. unfold Id, Name in *. split; congruence.
Qed.

Lemma Id_Name_stable_witness :
  ∃ s', run three_sends (StartFuncName "worker" echo 9).1 = Some s' ∧
        Id s' = 9%N ∧ Name s' = "worker".
Proof.
  eexists. split; [vm_compute; reflexivity|].
  match goal with
  | |- Id ?s' = _ ∧ _ =>
      exact (Id_Name_stable three_sends (StartFuncName "worker" echo 9).1 s'
               ltac:(vm_compute; reflexivity))
  end.
Defined.

(** ** The identifiers handed out by the start functions *)

(** X3. Both start functions give the coroutine the current [nextId] and
    leave the counter one higher, wrapping at 2^64.  Two coroutines started
    one after the other have different ids, and the second id is the first
    plus one unless the counter wrapped. *)
Theorem start_ids (nm1 nm2 : string) (f1 : Body) (st2 : Starter) (nextId : N) :
  (nextId < 2 ^ 64)%N →
  let '(s1, n1) := StartFuncName nm1 f1 nextId in
  let '(s2, n2) := StartName nm2 st2 n1 in
  Id s1 = nextId ∧ Id s2 = n1 ∧ Id s1 ≠ Id s2 ∧ (n2 < 2 ^ 64)%N ∧
  ((nextId + 1 < 2 ^ 64)%N → Id s2 = (Id s1 + 1)%N) ∧
  (nextId = (2 ^ 64 - 1)%N → Id s2 = 0%N).
Proof.
  intros Hn. unfold StartFuncName, StartName, Id, next_id; simpl.
  assert (H64 : (2 ^ 64 = 18446744073709551616)%N) by reflexivity.
  split; [done|]. split; [done|]. split; [|split; [|split]].
  - destruct (decide (nextId + 1 < 2 ^ 64)%N) as [Hlt|Hge].
    + rewrite N.mod_small by done. lia.
    + assert (nextId + 1 = 2 ^ 64)%N as -> by lia.
      rewrite N.Div0.mod_same. lia.
  - apply N.mod_lt. lia.
  - intros Hlt. by rewrite N.mod_small.
  - intros ->. reflexivity.
Qed.

Lemma start_ids_witness :
  let '(s1, n1) := StartFunc echo 1 in
  let '(s2, n2) := Start {| Start_method := echo; Embedded := zero_Embeddable |} n1 in
  Id s1 = 1%N ∧ Id s2 = 2%N ∧ n2 = 3%N.
Proof.
  pose proof (start_ids defaultName defaultName echo
                {| Start_method := echo; Embedded := zero_Embeddable |} 1
                ltac:(reflexivity)) as H.
  simpl in H. destruct H as (H1 & H2 & _).
  simpl. split; [exact H1|]. split; [exact H2|reflexivity].
Defined.

(** ** Parking *)

(** X4. The coroutine never parks with the mailbox mutex in its hand: at
    the receive of Recv, at the select of RecvFor and at the timer receive
    of Pause, also just before them, the mutex is free or held by a
    Send. *)
Theorem parks_without_mutex s0 sched s :
  just_started s0 → run sched s0 = Some s →
  suspended (pc s) = true ∨ pc s = InRecv R_recv ∨ (∃ d g, pc s = InRecvFor d (F_sel g)) →
  mailboxLock (emb s) ≠ Some Coroutine.
Proof.
  intros H0 Hrun Hp Hl.
  assert (Hr : reachable s) by (by exists s0, sched).
  destruct (invariant_reachable s Hr) as (_ & _ & _ & _ & _ & _ & Hown).
  destruct (Hown Hl) as [H|H]; destruct Hp as [Hp|[Hp|(d & g & Hp)]];
    try rewrite Hp in H; try done;
    destruct (pc s) as [|? []|[]|? []|[]|[]|? []| |]; done.
Qed.

Lemma parks_without_mutex_witness :
  ∃ s, run [Co; Co; Co; Co; Co; Co] (StartFunc echo 1).1 = Some s ∧
       pc s = InRecv R_wait ∧ mailboxLock (emb s) ≠ Some Coroutine.
Proof.
  eexists. split; [vm_compute; reflexivity|]. split; [reflexivity|].
  match goal with
  | |- mailboxLock (emb ?s) ≠ _ =>
      exact (parks_without_mutex (StartFunc echo 1).1 [Co; Co; Co; Co; Co; Co] s
               (StartFuncName_started _ _ _) ltac:(vm_compute; reflexivity)
               (or_introl eq_refl))
  end.
Defined.

(** ** After the goroutine is gone *)

Definition frozen (p : Pc) (r : list Result) (dq q : list Value) (s : State) : Prop :=
  pc s = p ∧ results s = r ∧ dequeued s = dq ∧ ∃ vs, mailbox (emb s) = q ++ vs.

Lemma frozen_step p r dq q l s s' :
  left p → frozen p r dq q s → step l s = Some s' → frozen p r dq q s'.
Proof.
  unfold frozen. destruct s as [[] ? p' ? ? ? ? ? ?]; simpl.
  intros Hl (-> & -> & -> & vs & ->) Hs.
  destruct p as [|? []|[]|? []|[]|[]|? []| |]; try done;
    destruct l; step_cases Hs; simpl in *; repeat split; eauto;
    eexists; symmetry; apply app_assoc.
Qed.

(** X5. Once the goroutine of the coroutine is gone, nothing is received
    any more: under every schedule its position and the results of its body
    stay as they are and no message is taken out; Sends only make the
    mailbox longer. *)
Theorem gone_is_final sched s s' :
  left (pc s) → run sched s = Some s' →
  pc s' = pc s ∧ results s' = results s ∧ dequeued s' = dequeued s ∧
  ∃ vs, mailbox (emb s') = mailbox (emb s) ++ vs.
Proof.
  intros Hl Hrun.
  eapply (run_invariant (frozen (pc s) (results s) (dequeued s) (mailbox (emb s))));
    [intros; by eapply frozen_step| |done].
  repeat split. exists []. by rewrite app_nil_r.
Qed.

(** The body returns; a whole Send and the first half of another follow. *)
Lemma gone_is_final_witness :
  ∃ s s', run [Co; Co; Co; Co; Co; Co] (StartFunc returns_at_once 1).1 = Some s ∧
          run [CallSend (VInt 1); Ho 0; Ho 0; Ho 0; Ho 0; CallSend (VInt 2); Ho 1; Ho 1]%nat s
            = Some s' ∧
          pc s' = Ended None ∧ results s' = [] ∧
          mailbox (emb s') = [VInt 1; VInt 2].
Proof.
  eexists. eexists. split; [vm_compute; reflexivity|].
  match goal with
  | |- run ?k ?s = Some ?s' ∧ _ =>
      assert (Hk : run k s = Some s') by (vm_compute; reflexivity);
      split; [exact Hk|];
      destruct (gone_is_final k s s' I Hk) as (Hp & Hr & _)
  end.
  split; [exact Hp|]. split; [exact Hr|reflexivity].
Defined.

(** ** The coroutine stops itself *)

Definition stopping (r : list Result) (dq : list Value) (s : State) : Prop :=
  teardown s ∧ results s = r ∧ dequeued s = dq ∧
  ((∃ l, pc s = InStop l) ∨ (∃ l, pc s = InDefer (Some PStop) l) ∨
   pc s = Ended (Some PStop)).

Lemma stopping_step r dq l s s' :
  stopping r dq s → step l s = Some s' → stopping r dq s'.
Proof.
  intros (Ht & Hr & Hdq & Hp) Hs. split; [by eapply teardown_step|].
  destruct Ht as (_ & Hc & _). clear -Hc Hr Hdq Hp Hs.
  destruct s as [[] ? q ? ? ? ? ? ?]; simpl in *.
  destruct Hp as [[l' ->]|[[l' ->]| ->]];
    destruct l; step_cases Hs; simpl in *; eauto 10.
Qed.

(** X6. A call of the coroutine's own Stop never returns: under every
    schedule the body gets no further result and nothing is dequeued; the
    coroutine is inside Stop, or in the deferred function with the Stop
    value, or has ended silently.  Run alone from a running coroutine, the
    call logs nothing, clears the flag and ends the goroutine after the
    whole cleanup. *)
Theorem own_Stop_never_returns s0 sched0 s l :
  just_started s0 → run sched0 s0 = Some s → pc s = InStop l →
  (∀ sched s', run sched s = Some s' →
     results s' = results s ∧ dequeued s' = dequeued s ∧
     ((∃ l', pc s' = InStop l') ∨ (∃ l', pc s' = InDefer (Some PStop) l') ∨
      pc s' = Ended (Some PStop))) ∧
  (l = X_entry → running (emb s) = true →
   ∃ s', run [Co; Co; Co; Co; Co; Co; Co; Co] s = Some s' ∧
         pc s' = Ended (Some PStop) ∧ logged s' = logged s ∧
         torn_down (emb s') ∧ mailbox (emb s') = mailbox (emb s)).
Proof.
  intros H0 Hrun Hp.
  assert (Hr : reachable s) by (by exists s0, sched0).
  destruct (invariant_reachable s Hr) as (_ & _ & _ & Ht & _).
  split.
  - intros sched s' Hs'.
    assert (stopping (results s) (dequeued s) s') as (_ & ? & ? & ?); [|done].
    eapply (run_invariant (stopping (results s) (dequeued s)));
      [apply stopping_step| |done].
    split; [done|]. repeat split. left. eauto.
  - intros -> Hrn.
    destruct Ht as (_ & Hc & _). rewrite Hp in Hc. simpl in Hc.
    destruct s as [[] ? q ? ? ? ? ? ?]; simpl in *. subst.
    eexists. split; [vm_compute; reflexivity|]. done.
Qed.

Lemma own_Stop_never_returns_witness :
  ∃ s s', run [Co] (StartFunc stops_itself 1).1 = Some s ∧
          pc s = InStop X_entry ∧
          run [Co; Co; Co; Co; Co; Co; Co; Co] s = Some s' ∧
          pc s' = Ended (Some PStop) ∧ logged s' = [].
Proof.
  eexists.
  match goal with
  | |- ∃ s', ?R = Some ?s ∧ _ =>
      assert (Hr : R = Some s) by (vm_compute; reflexivity)
  end.
  match type of Hr with
  | _ = Some ?s =>
      destruct (proj2 (own_Stop_never_returns (StartFunc stops_itself 1).1 [Co] s X_entry
                         (StartFuncName_started _ _ _) Hr eq_refl) eq_refl eq_refl)
        as (s' & Hs' & Hp & Hl & _)
  end.
  exists s'. split; [exact Hr|]. split; [reflexivity|].
  split; [exact Hs'|]. split; [exact Hp|exact Hl].
Defined.

(** ** The receives, run alone *)

(** X7. RecvImmediate never parks.  Run alone it panics with the Stop value
    when the flag is false, waits at the Lock when another goroutine holds
    the mutex, and otherwise returns within six statements: (nil, false)
    and an untouched mailbox when the mailbox is empty, the head and true,
    with the head removed, when it is not.  The mutex is free again. *)
Theorem RecvImmediate_returns s :
  alone 6 (goto (InRecvImmediate I_entry) s) =
  if running (emb s) then
    match mailboxLock (emb s), mailbox (emb s) with
    | Some _, _ => goto (InRecvImmediate I_lock) s
    | None, [] => ret (RPair VNil false) s
    | None, r :: q => ret (RPair r true) (note_dequeued r (set_mailbox q s))
    end
  else panic PStop s.
Proof.
  destruct s as [[? ? ? ? ? q lk rn] ? p ? ? ? ? ? ?]; simpl.
  destruct rn; [|reflexivity].
  destruct lk; [reflexivity|]. destruct q; reflexivity.
Qed.

(** X8. Recv, run alone with the flag true and the mutex free: on a
    mailbox that is not empty it returns the head within six statements and
    removes it; on an empty mailbox it releases the mutex and parks on the
    receiver, having changed nothing. *)
Theorem Recv_alone s :
  running (emb s) = true → mailboxLock (emb s) = None → receiver (emb s) = false →
  match mailbox (emb s) with
  | r :: q =>
      alone 6 (goto (InRecv R_entry) s) = ret (RValue r) (note_dequeued r (set_mailbox q s))
  | [] =>
      alone 7 (goto (InRecv R_entry) s) = goto (InRecv R_wait) s ∧
      step Co (goto (InRecv R_wait) s) = None
  end.
Proof.
  destruct s as [[? ? ? ? ? q lk rn] ? p ? ? ? ? ? ?]; simpl.
  intros -> -> ->. destruct q; [split|]; reflexivity.
Qed.

Lemma Recv_alone_witness :
  let s := started "w" echo 1 [VInt 4; VInt 5] in
  alone 6 (goto (InRecv R_entry) s) =
  ret (RValue (VInt 4)) (note_dequeued (VInt 4) (set_mailbox [VInt 5] s)).
Proof.
  intros s. exact (Recv_alone s eq_refl eq_refl eq_refl).
Defined.

(** ** The calls made through the Ref, run alone *)

(** Where a notify leaves the coroutine: woken if it was parked on the
    receiver, where it was otherwise (so also when it is parked in Pause). *)
Definition notified (p : Pc) : Pc :=
  match p with
  | InRecv R_wait => InRecv R_woken
  | InRecvFor d (F_select g) => InRecvFor d (F_woken g ByReceiver)
  | _ => p
  end.

Lemma Ho_step i h s :
  holders s !! i = Some h →
  step (Ho i) s = match h with
                  | InSend v l => Send i v l s
                  | InRefStop l => RefStop i l s
                  | _ => None
                  end.
Proof. unfold step, holder_step. by intros ->. Qed.

Lemma at_holder_lookup i h h0 s :
  holders s !! i = Some h0 → holders (at_holder i h s) !! i = Some h.
Proof.
  intros H. simpl. apply list_lookup_insert_eq. by eapply lookup_lt_Some.
Qed.

Lemma notify_open s :
  receiver (emb s) = false → notify s = inl (goto (notified (pc s)) s).
Proof.
  unfold notify. intros ->.
  by destruct s as [? ? [|? []|[]|? []|[]|[]|? []| |] ? ? ? ? ? ?].
Qed.

(** The first three statements of Send (embed.go:189-191). *)
Lemma Send_statements i v s :
  holders s !! i = Some (InSend v S_lock) → mailboxLock (emb s) = None →
  ∃ s3, run [Ho i; Ho i; Ho i] s = Some s3 ∧
        holders s3 = <[i := InSend v S_notify]> (holders s) ∧
        mailbox (emb s3) = mailbox (emb s) ++ [v] ∧ mailboxLock (emb s3) = None ∧
        receiver (emb s3) = receiver (emb s) ∧ running (emb s3) = running (emb s) ∧
        results s3 = results s ∧ pc s3 = pc s.
Proof.
  intros Hi Hl.
  set (s1 := at_holder i (InSend v S_append) (set_mailboxLock (Some (Holder i)) s)).
  set (s2 := at_holder i (InSend v S_unlock)
               (note_enqueued v (set_mailbox (mailbox (emb s) ++ [v]) s1))).
  assert (H1 : holders s1 !! i = Some (InSend v S_append)).
  { exact (at_holder_lookup i _ _ (set_mailboxLock (Some (Holder i)) s) Hi). }
  assert (H2 : holders s2 !! i = Some (InSend v S_unlock)).
  { exact (at_holder_lookup i _ _
             (note_enqueued v (set_mailbox (mailbox (emb s) ++ [v]) s1)) H1). }
  exists (at_holder i (InSend v S_notify) (set_mailboxLock None s2)).
  rewrite (run_cons _ _ s s1);
    [|rewrite (Ho_step _ _ _ Hi); unfold Send, Lock; by rewrite Hl].
  rewrite (run_cons _ _ s1 s2); [|by rewrite (Ho_step _ _ _ H1)].
  rewrite (run_cons _ _ s2 (at_holder i (InSend v S_notify) (set_mailboxLock None s2)));
    [|by rewrite (Ho_step _ _ _ H2)].
  split; [reflexivity|]. simpl. rewrite !list_insert_insert_eq. done.
Qed.

(** X9. Send(v), run alone with the mutex free, never blocks: in four
    statements it appends v at the tail of the mailbox and releases the
    mutex; then, if the receiver is open, it returns and a coroutine parked
    on the receiver is woken (any other coroutine is left where it is), and
    if the receiver is closed it panics with the message still appended. *)
Theorem Send_alone i v s :
  holders s !! i = Some (InSend v S_lock) → mailboxLock (emb s) = None →
  ∃ s', run [Ho i; Ho i; Ho i; Ho i] s = Some s' ∧
        mailbox (emb s') = mailbox (emb s) ++ [v] ∧
        mailboxLock (emb s') = None ∧
        running (emb s') = running (emb s) ∧ results s' = results s ∧
        if receiver (emb s)
        then holders s' = <[i := Panicked (PError "send on closed channel")]> (holders s) ∧
             pc s' = pc s
        else holders s' = <[i := Returned]> (holders s) ∧ pc s' = notified (pc s).
Proof.
  intros Hi Hl.
  destruct (Send_statements i v s Hi Hl)
    as (s3 & H3 & Hh & Hm & Hl3 & Hrc & Hrn & Hres & Hpc).
  assert (Hi3 : holders s3 !! i = Some (InSend v S_notify)).
  { rewrite Hh. apply list_lookup_insert_eq. by eapply lookup_lt_Some. }
  change [Ho i; Ho i; Ho i; Ho i] with ([Ho i; Ho i; Ho i] ++ [Ho i]).
  rewrite run_app, H3. cbn [mbind option_bind].
  destruct (receiver (emb s)) eqn:Hr.
  - rewrite (run_cons _ _ s3 (at_holder i (Panicked (PError "send on closed channel")) s3));
      [|rewrite (Ho_step _ _ _ Hi3); simpl; by rewrite (notify_closed s3) by congruence].
    eexists. split; [reflexivity|]. simpl. rewrite Hh, list_insert_insert_eq. done.
  - rewrite (run_cons _ _ s3 (at_holder i Returned (goto (notified (pc s3)) s3)));
      [|rewrite (Ho_step _ _ _ Hi3); simpl; by rewrite (notify_open s3) by congruence].
    eexists. split; [reflexivity|]. simpl. rewrite Hh, list_insert_insert_eq, Hpc. done.
Qed.

(** A Send(7) to a coroutine parked in Recv. *)
Lemma Send_alone_witness :
  ∃ s s', run [Co; Co; Co; Co; Co; Co; CallSend (VInt 7)] (StartFunc echo 1).1 = Some s ∧
          run [Ho 0; Ho 0; Ho 0; Ho 0]%nat s = Some s' ∧
          mailbox (emb s') = [VInt 7] ∧ holders s' = [Returned] ∧
          pc s' = InRecv R_woken.
Proof.
  eexists.
  match goal with
  | |- ∃ s', ?R = Some ?s ∧ _ =>
      assert (Hr : R = Some s) by (vm_compute; reflexivity)
  end.
  match type of Hr with
  | _ = Some ?s =>
      destruct (Send_alone 0 (VInt 7) s eq_refl eq_refl)
        as (s' & Hs' & Hm & _ & _ & _ & Hh & Hp)
  end.
  exists s'. split; [exact Hr|]. split; [exact Hs'|].
  split; [exact Hm|]. split; [exact Hh|exact Hp].
Defined.

(** X10. In every reachable state in which the goroutine of the coroutine
    is gone, a Send that reaches its select panics, and so does a ref.Stop()
    that had read the flag as true before the coroutine ended. *)
Theorem notify_after_end_panics s0 sched s i :
  just_started s0 → run sched s0 = Some s → left (pc s) →
  (∀ v, holders s !! i = Some (InSend v S_notify) →
        step (Ho i) s = Some (at_holder i (Panicked (PError "send on closed channel")) s)) ∧
  (holders s !! i = Some (InRefStop T_set) →
   ∃ s', run [Ho i; Ho i] s = Some s' ∧
         holders s' = <[i := Panicked (PError "send on closed channel")]> (holders s)).
Proof.
  intros H0 Hrun Hl.
  assert (Hc : receiver (emb s) = true).
  { apply left_closed; [by exists s0, sched|done]. }
  split.
  - intros v Hi. unfold step, holder_step. rewrite Hi. simpl.
    by rewrite (notify_closed s Hc).
  - intros Hi.
    set (s1 := at_holder i (InRefStop T_notify) (set_running false s)).
    assert (H1 : holders s1 !! i = Some (InRefStop T_notify)).
    { exact (at_holder_lookup i _ _ (set_running false s) Hi). }
    rewrite (run_cons _ _ s s1); [|by rewrite (Ho_step _ _ _ Hi)].
    rewrite (run_cons _ _ s1 (at_holder i (Panicked (PError "send on closed channel")) s1));
      [|rewrite (Ho_step _ _ _ H1); simpl; by rewrite (notify_closed s1)].
    eexists. split; [reflexivity|]. simpl. by rewrite list_insert_insert_eq.
Qed.

(** ref.Stop() reads the flag as true, the body returns and the goroutine
    ends, ref.Stop() goes on. *)
Lemma notify_after_end_panics_witness :
  ∃ s s', run [CallStop; Ho 0; Co; Co; Co; Co; Co; Co]%nat
              (StartFunc returns_at_once 1).1 = Some s ∧
          pc s = Ended None ∧
          run [Ho 0; Ho 0]%nat s = Some s' ∧
          holders s' = [Panicked (PError "send on closed channel")].
Proof.
  eexists.
  match goal with
  | |- ∃ s', ?R = Some ?s ∧ _ =>
      assert (Hr : R = Some s) by (vm_compute; reflexivity)
  end.
  match type of Hr with
  | _ = Some ?s =>
      destruct (proj2 (notify_after_end_panics (StartFunc returns_at_once 1).1 _ s 0%nat
                         (StartFuncName_started _ _ _) Hr I) eq_refl)
        as (s' & Hs' & Hh)
  end.
  exists s'. split; [exact Hr|]. split; [reflexivity|].
  split; [exact Hs'|exact Hh].
Defined.

(** X11. ref.Stop() on a coroutine whose flag is true and whose receiver is
    open, run alone: in three statements it clears the flag, logs nothing,
    leaves the mailbox alone and returns.  A coroutine parked on the
    receiver (Recv, RecvFor) is woken and its next statement panics with the
    Stop value; a coroutine parked in Pause is not woken. *)
Theorem RefStop_alone i s :
  holders s !! i = Some (InRefStop T_check) →
  running (emb s) = true → receiver (emb s) = false →
  ∃ s', run [Ho i; Ho i; Ho i] s = Some s' ∧
        running (emb s') = false ∧ logged s' = logged s ∧
        mailbox (emb s') = mailbox (emb s) ∧ results s' = results s ∧
        holders s' = <[i := Returned]> (holders s) ∧
        pc s' = notified (pc s) ∧
        (rechecks_running (pc s') = true → step Co s' = Some (panic PStop s')) ∧
        (∀ d g, pc s = InPause d (P_wait g) → pc s' = pc s).
Proof.
  intros Hi Hrn Hrc.
  set (s1 := at_holder i (InRefStop T_set) s).
  set (s2 := at_holder i (InRefStop T_notify) (set_running false s1)).
  assert (H1 : holders s1 !! i = Some (InRefStop T_set)).
  { exact (at_holder_lookup i _ _ s Hi). }
  assert (H2 : holders s2 !! i = Some (InRefStop T_notify)).
  { exact (at_holder_lookup i _ _ (set_running false s1) H1). }
  rewrite (run_cons _ _ s s1);
    [|rewrite (Ho_step _ _ _ Hi); unfold RefStop; by rewrite Hrn].
  rewrite (run_cons _ _ s1 s2); [|by rewrite (Ho_step _ _ _ H1)].
  rewrite (run_cons _ _ s2 (at_holder i Returned (goto (notified (pc s2)) s2)));
    [|rewrite (Ho_step _ _ _ H2); simpl; by rewrite (notify_open s2)].
  eexists. split; [reflexivity|]. simpl. rewrite !list_insert_insert_eq.
  split_and!; try done.
  - destruct (pc s) as [|? []|[]|? []|[]|[]|? []| |]; try done.
  - by intros d g ->.
Qed.

Lemma RefStop_alone_witness :
  ∃ s s', run [Co; Co; Co; Co; Co; Co; CallStop] (StartFunc echo 1).1 = Some s ∧
          run [Ho 0; Ho 0; Ho 0]%nat s = Some s' ∧
          Running s' = false ∧ pc s' = InRecv R_woken ∧
          step Co s' = Some (panic PStop s').
Proof.
  eexists.
  match goal with
  | |- ∃ s', ?R = Some ?s ∧ _ =>
      assert (Hr : R = Some s) by (vm_compute; reflexivity)
  end.
  match type of Hr with
  | _ = Some ?s =>
      destruct (RefStop_alone 0 s eq_refl eq_refl eq_refl)
        as (s' & Hs' & Hrn & _ & _ & _ & _ & Hp & Hu & _)
  end.
  exists s'. split; [exact Hr|]. split; [exact Hs'|]. split; [exact Hrn|].
  split; [exact Hp|]. apply Hu. rewrite Hp. reflexivity.
Defined.

(** ** After the wake *)

(** X12. After a wake that finds the flag true and the mutex free, RecvFor,
    run alone, looks at the mailbox again: it returns (nil, false) and
    changes nothing when the mailbox is empty, whether the timer or a notify
    woke it, and the head with true otherwise. *)
Theorem RecvFor_after_wake d g w s :
  pc s = InRecvFor d (F_woken g w) →
  running (emb s) = true → mailboxLock (emb s) = None →
  alone 5 s =
  match mailbox (emb s) with
  | [] => ret (RPair VNil false) s
  | r :: q => ret (RPair r true) (note_dequeued r (set_mailbox q s))
  end.
Proof.
  destruct s as [[? ? ? ? ? q lk rn] ? p ? ? ? ? ? ?]; simpl.
  intros -> -> ->. destruct q; reflexivity.
Qed.

Lemma RecvFor_after_wake_witness :
  ∃ s, run [Co; Co; Co; Co; Co; Co; Co; Co; Co; ExpireReceive; Co]
           (StartFunc polls 1).1 = Some s ∧
       pc s = InRecvFor 5 (F_woken 1 (ByTimer 1)) ∧
       results (alone 5 s) = [RPair VNil false].
Proof.
  eexists. split; [vm_compute; reflexivity|]. split; [reflexivity|].
  match goal with
  | |- results (alone 5 ?s) = _ =>
      rewrite (RecvFor_after_wake 5 1 (ByTimer 1) s eq_refl eq_refl eq_refl)
  end.
  reflexivity.
Defined.

(** X13. A coroutine parked in Recv and a Send(v) run alone, then the
    coroutine run alone: Recv returns the oldest message of the mailbox
    with v appended, also when messages were already waiting, removes it and
    leaves the mutex free. *)
Theorem Send_then_Recv i v s :
  pc s = InRecv R_wait → running (emb s) = true → receiver (emb s) = false →
  mailboxLock (emb s) = None → holders s !! i = Some (InSend v S_lock) →
  ∃ s1 r q, run [Ho i; Ho i; Ho i; Ho i] s = Some s1 ∧
            mailbox (emb s) ++ [v] = r :: q ∧
            pc (alone 4 s1) = InBody ∧
            results (alone 4 s1) = results s ++ [RValue r] ∧
            mailbox (emb (alone 4 s1)) = q ∧
            mailboxLock (emb (alone 4 s1)) = None.
Proof.
  intros Hp Hrn Hrc Hl Hi.
  destruct (Send_statements i v s Hi Hl)
    as (s3 & H3 & Hh & Hm & Hl3 & Hrc3 & Hrn3 & Hres & Hpc).
  assert (Hi3 : holders s3 !! i = Some (InSend v S_notify)).
  { rewrite Hh. apply list_lookup_insert_eq. by eapply lookup_lt_Some. }
  exists (at_holder i Returned (goto (InRecv R_woken) s3)).
  destruct (mailbox (emb s) ++ [v]) as [|r q] eqn:Hq.
  { by destruct (mailbox (emb s)). }
  exists r, q. split.
  - change [Ho i; Ho i; Ho i; Ho i] with ([Ho i; Ho i; Ho i] ++ [Ho i]).
    rewrite run_app, H3. cbn [mbind option_bind].
    rewrite (run_cons _ _ s3 (at_holder i Returned (goto (InRecv R_woken) s3))); [done|].
    rewrite (Ho_step _ _ _ Hi3). simpl.
    rewrite (notify_open s3) by congruence. by rewrite Hpc, Hp.
  - split; [done|].
    destruct s3 as [[? ? ? ? ? q3 lk3 rn3] ? p3 ? ? ? ? ? ?]; simpl in *.
    subst. rewrite Hrn. simpl. done.
Qed.

(** The lost wake-up of [Recv_parks_on_nonempty_mailbox], then Send(8):
    Recv returns the 7 that was waiting. *)
Lemma Send_then_Recv_witness :
  ∃ s s1, run [Co; Co; Co; Co; Co; CallSend (VInt 7); Ho 0; Ho 0; Ho 0; Ho 0; Co;
               CallSend (VInt 8)]%nat (StartFunc echo 1).1 = Some s ∧
          run [Ho 1; Ho 1; Ho 1; Ho 1]%nat s = Some s1 ∧
          results (alone 4 s1) = [RValue (VInt 7)] ∧
          mailbox (emb (alone 4 s1)) = [VInt 8].
Proof.
  eexists.
  match goal with
  | |- ∃ s', ?R = Some ?s ∧ _ =>
      assert (Hr : R = Some s) by (vm_compute; reflexivity)
  end.
  match type of Hr with
  | _ = Some ?s =>
      destruct (Send_then_Recv 1 (VInt 8) s eq_refl eq_refl eq_refl eq_refl eq_refl)
        as (s1 & r & q & Hs1 & Hq & _ & Hres & Hm & _)
  end.
  exists s1. split; [exact Hr|]. split; [exact Hs1|].
  simpl in Hq. injection Hq as <- <-. split; [exact Hres|exact Hm].
Defined.

(** ** Pause *)

(** X14. Pause(d) on a running coroutine, in a reachable state: within
    five statements the coroutine has drained and re-armed waitTimer with
    period d and stands at the receive of line 48, where it cannot move
    while the timer is armed; the mailbox and the mutex were not touched.
    When the runtime expires the timer, Pause returns in two statements. *)
Theorem Pause_arms_and_waits s0 sched s d :
  just_started s0 → run sched s0 = Some s →
  pc s = InPause d P_entry → running (emb s) = true →
  ∃ n s', (n ≤ 5)%nat ∧ run (replicate n Co) s = Some s' ∧
          (∃ g, pc s' = InPause d (P_wait g)) ∧
          armed (waitTimer (emb s')) = true ∧ period (waitTimer (emb s')) = d ∧
          step Co s' = None ∧
          mailbox (emb s') = mailbox (emb s) ∧ mailboxLock (emb s') = mailboxLock (emb s) ∧
          ∃ s'', run [ExpireWait; Co; Co] s' = Some s'' ∧
                 pc s'' = InBody ∧ results s'' = results s ++ [RUnit].
Proof.
  intros H0 Hrun.
  assert (Hr : reachable s) by (by exists s0, sched).
  destruct (invariant_reachable s Hr) as (_ & _ & Ht & _).
  destruct Ht as ([Hw1 Hw2] & _). clear H0 Hrun Hr.
  destruct s as [[? ? [a ? ? c] ? ? ? ? rn] ? p ? ? ? ? ? ?]; simpl in *.
  intros -> ->.
  destruct a; [rewrite (Hw1 eq_refl)|destruct c].
  - exists 3%nat. eexists. split; [lia|]. split; [vm_compute; reflexivity|].
    split; [by eexists|]. split_and!; try reflexivity.
    eexists. split; [vm_compute; reflexivity|]. done.
  - exists 5%nat. eexists. split; [lia|]. split; [vm_compute; reflexivity|].
    split; [by eexists|]. split_and!; try reflexivity.
    eexists. split; [vm_compute; reflexivity|]. done.
  - exists 4%nat. eexists. split; [lia|]. split; [vm_compute; reflexivity|].
    split; [by eexists|]. split_and!; try reflexivity.
    eexists. split; [vm_compute; reflexivity|]. done.
Qed.

Lemma Pause_arms_and_waits_witness :
  ∃ s n s', run [Co] (StartFunc naps 1).1 = Some s ∧
            run (replicate n Co) s = Some s' ∧
            armed (waitTimer (emb s')) = true ∧ period (waitTimer (emb s')) = 10 ∧
            step Co s' = None.
Proof.
  eexists.
  match goal with
  | |- ∃ n s', ?R = Some ?s ∧ _ =>
      assert (Hr : R = Some s) by (vm_compute; reflexivity)
  end.
  match type of Hr with
  | _ = Some ?s =>
      destruct (Pause_arms_and_waits (StartFunc naps 1).1 [Co] s 10
                  (StartFuncName_started _ _ _) Hr eq_refl eq_refl)
        as (n & s' & _ & Hs' & _ & Ha & Hper & Hb & _)
  end.
  exists n, s'. split; [exact Hr|]. split; [exact Hs'|].
  split; [exact Ha|]. split; [exact Hper|exact Hb].
Defined.

(** ** What never happens *)

(** X15. Until the deferred function has closed the receiver (start.go:62)
    no notify panics: in every reachable state before that statement a Send
    at its select, and a ref.Stop() at its select, returns. *)
Theorem notify_before_close_returns s0 sched s i h :
  just_started s0 → run sched s0 = Some s →
  did CloseReceiver (pc s) = false →
  holders s !! i = Some h →
  (∃ v, h = InSend v S_notify) ∨ h = InRefStop T_notify →
  ∃ s', step (Ho i) s = Some s' ∧ holders s' = <[i := Returned]> (holders s).
Proof.
  intros H0 Hrun Hd Hi Hh.
  assert (Hr : reachable s) by (by exists s0, sched).
  destruct (invariant_reachable s Hr) as (_ & _ & _ & Ht & _).
  destruct Ht as (_ & Hc & _). rewrite Hd in Hc.
  rewrite (Ho_step _ _ _ Hi).
  destruct Hh as [[v ->]| ->]; simpl; rewrite (notify_open s Hc);
    eexists; (split; [reflexivity|]); done.
Qed.

Lemma notify_before_close_returns_witness :
  ∃ s s', run [CallSend (VInt 1); Ho 0; Ho 0; Ho 0]%nat (StartFunc echo 1).1 = Some s ∧
          step (Ho 0) s = Some s' ∧ holders s' = [Returned].
Proof.
  eexists.
  match goal with
  | |- ∃ s', ?R = Some ?s ∧ _ =>
      assert (Hr : R = Some s) by (vm_compute; reflexivity)
  end.
  match type of Hr with
  | _ = Some ?s =>
      destruct (notify_before_close_returns (StartFunc echo 1).1 _ s 0%nat _
                  (StartFuncName_started _ _ _) Hr eq_refl eq_refl
                  (or_introl (ex_intro _ (VInt 1) eq_refl)))
        as (s' & Hs' & Hh)
  end.
  exists s'. split; [exact Hr|]. split; [exact Hs'|exact Hh].
Defined.

Lemma logged_step l s s' :
  running (emb s) = true → step l s = Some s' → logged s' = logged s.
Proof.
  destruct s as [[? ? ? ? ? ? ? rn] ? p ? ? ? ? ? ?]; simpl. intros -> Hs.
  destruct l; step_cases Hs; simpl in *; done.
Qed.

(** X16. The package logs only about a coroutine that is not running: as
    long as Running() is true at the end of a schedule, the schedule has
    logged nothing. *)
Theorem logs_only_when_stopped sched s s' :
  run sched s = Some s' → Running s' = true → logged s' = logged s.
Proof.
  revert s. induction sched as [|l sched IH]; intros s Hrun Hrn; simpl in Hrun.
  - by simplify_eq.
  - destruct (step l s) as [s1|] eqn:Hs; simpl in Hrun; [|done].
    rewrite (IH _ Hrun Hrn). apply (logged_step l); [|done].
    destruct (running (emb s)) eqn:Hr; [done|].
    pose proof (running_step _ _ _ Hr Hs) as H1.
    assert (running (emb s') = false); [|unfold Running in Hrn; congruence].
    by eapply (run_invariant (λ s, running (emb s) = false)); eauto using running_step.
Qed.

Lemma logs_only_when_stopped_witness :
  ∃ s', run three_sends (StartFunc echo 1).1 = Some s' ∧ logged s' = [].
Proof.
  eexists. split; [vm_compute; reflexivity|].
  match goal with
  | |- logged ?s' = _ =>
      exact (logs_only_when_stopped three_sends (StartFunc echo 1).1 s'
               ltac:(vm_compute; reflexivity) eq_refl)
  end.
Defined.

(** X17. Mutual exclusion on the mailbox: in every reachable state at most
    one goroutine is between a Lock and its Unlock (the coroutine in a
    receive, or one Send). *)
Theorem one_goroutine_in_section s0 sched s :
  just_started s0 → run sched s0 = Some s →
  (in_section (pc s) = true →
   ∀ i h, holders s !! i = Some h → holder_in_section h = false) ∧
  (∀ i j hi hj, holders s !! i = Some hi → holders s !! j = Some hj →
                holder_in_section hi = true → holder_in_section hj = true → i = j).
Proof.
  intros H0 Hrun.
  assert (Hr : reachable s) by (by exists s0, sched).
  destruct (invariant_reachable s Hr) as (_ & _ & _ & _ & Hco & Hho & _).
  split.
  - intros Hin i h Hi. destruct (holder_in_section h) eqn:Hh; [|done].
    specialize (Hco Hin). specialize (Hho i h Hi Hh). congruence.
  - intros i j hi hj Hi Hj Hhi Hhj.
    specialize (Hho i hi Hi Hhi) as H1. specialize (Hho j hj Hj Hhj) as H2.
    congruence.
Qed.

(** Two Sends race for the mutex: the second cannot take it. *)
Lemma one_goroutine_in_section_witness :
  ∃ s, run [CallSend (VInt 1); CallSend (VInt 2); Ho 0]%nat (StartFunc echo 1).1 = Some s ∧
       holders s = [InSend (VInt 1) S_append; InSend (VInt 2) S_lock] ∧
       step (Ho 1) s = None ∧
       (∀ i j hi hj, holders s !! i = Some hi → holders s !! j = Some hj →
                     holder_in_section hi = true → holder_in_section hj = true → i = j).
Proof.
  eexists. split; [vm_compute; reflexivity|]. split; [reflexivity|].
  split; [reflexivity|].
  match goal with
  | |- ∀ i j hi hj, holders ?s !! i = _ → _ =>
      exact (proj2 (one_goroutine_in_section (StartFunc echo 1).1
                      [CallSend (VInt 1); CallSend (VInt 2); Ho 0]%nat s
                      (StartFuncName_started _ _ _) ltac:(vm_compute; reflexivity)))
  end.
Defined.

(** X18. Inside a section nobody waits: in every reachable state a
    goroutine that is between Lock and Unlock can execute its next
    statement; in particular no Unlock meets an unlocked mutex. *)
Theorem sections_never_block s0 sched s :
  just_started s0 → run sched s0 = Some s →
  (in_section (pc s) = true → is_Some (step Co s)) ∧
  (∀ i h, holders s !! i = Some h → holder_in_section h = true →
          is_Some (step (Ho i) s)).
Proof.
  intros H0 Hrun.
  assert (Hr : reachable s) by (by exists s0, sched).
  destruct (invariant_reachable s Hr) as (_ & _ & _ & _ & Hco & Hho & _).
  split.
  - intros Hin. specialize (Hco Hin). clear -Hin Hco.
    destruct s as [[] ? p ? ? ? ? ? ?]; simpl in *. subst.
    destruct p as [|? []|[]|? []|[]|[]|? []| |]; try done; by eexists.
  - intros i h Hi Hh. specialize (Hho i h Hi Hh).
    rewrite (Ho_step _ _ _ Hi).
    destruct h as [v []| | |]; try done; simpl; unfold Unlock; rewrite ?Hho;
      by eexists.
Qed.

Lemma sections_never_block_witness :
  ∃ s, run [CallSend (VInt 1); Ho 0; Ho 0]%nat (StartFunc echo 1).1 = Some s ∧
       holders s = [InSend (VInt 1) S_unlock] ∧ is_Some (step (Ho 0) s).
Proof.
  eexists. split; [vm_compute; reflexivity|]. split; [reflexivity|].
  match goal with
  | |- is_Some (step (Ho 0) ?s) =>
      exact (proj2 (sections_never_block (StartFunc echo 1).1
                      [CallSend (VInt 1); Ho 0; Ho 0]%nat s
                      (StartFuncName_started _ _ _) ltac:(vm_compute; reflexivity))
               0%nat _ eq_refl eq_refl)
  end.
Defined.
